(** * flaky-api: a shallow embedding of the house-image downloader

    The program pages through a flaky HTTP API (pages 1..10), decodes each
    page into a list of houses, hands the houses over an unbuffered channel
    to a pool of [maxGoroutines] workers and lets each worker download the
    photo of every house it receives.

    The embedding follows the pipelined program (the file with
    [pipeHouses] and [downloadHouseImages]); the earlier, non-pipelined
    [downloadHouseImage] of main.go is embedded next to it because it is the
    sibling of the worker loop.

    - Go's [int] is [Z]; strings are [string] (byte strings).
    - What the program does to the outside world is recorded as a trace of
      [Event]s, threaded through a small state-and-exit monad [M].
    - The outside world (HTTP server, JSON decoder, file system) is an
      [Env] of oracles.
    - The goroutines, the channel and the wait group are a transition
      system [step], driven by an explicit schedule. *)

From Stdlib Require Import ZArith String Ascii List Bool Lia Arith Permutation.
From Stdlib Require Import DecimalString DecimalZ DecimalPos.
Import ListNotations.

Local Open Scope Z_scope.

(** ** Constants and data (the [const], [type] blocks) *)

Definition endpointPrefix : string :=
  "http://app-homevision-staging.herokuapp.com/api_project/houses?page="%string.

Definition maxTries : Z := 20.
Definition maxGoroutines : Z := 20.

Record house : Type := mkHouse {
  ID : Z;
  Address : string;
  Homeowner : string;
  Price : Z;
  PhotoURL : string
}.

Record houses : Type := mkHouses { Houses : list house }.

(** [http.Response], as far as the program looks at it. *)
Record Response : Type := mkResponse {
  StatusCode : Z;
  Body : string
}.

Definition StatusOK : Z := 200.

(** What [client.Get] hands back: a response pointer and an error.
    net/http promises a non-nil response when the error is nil; with a
    non-nil error the response is nil except when the redirect policy fails
    (the default policy gives up after ten redirects), where both are
    non-nil. Errors are kept by their message. *)
Inductive GetResult : Type :=
| GetResp (r : Response)                    (* resp, nil *)
| GetErr (e : string)                       (* nil, err *)
| GetRespErr (r : Response) (e : string).   (* resp, err *)

Definition respOf (g : GetResult) : option Response :=
  match g with
  | GetResp r => Some r
  | GetErr _ => None
  | GetRespErr r _ => Some r
  end.

Definition errOf (g : GetResult) : option string :=
  match g with
  | GetResp _ => None
  | GetErr e => Some e
  | GetRespErr _ e => Some e
  end.

(** ** The Go library functions the program calls *)

Module GoLib.

(** [%d] of an [int]. *)
Definition itoa (z : Z) : string := NilZero.string_of_int (Z.to_int z).

Fixpoint inCutset (c : ascii) (cutset : string) : bool :=
  match cutset with
  | EmptyString => false
  | String d rest => if Ascii.eqb c d then true else inCutset c rest
  end.

(** [strings.TrimRight(s, cutset)]: [s] without its trailing bytes that
    are in [cutset]. *)
Fixpoint TrimRight (s cutset : string) : string :=
  match s with
  | EmptyString => EmptyString
  | String c rest =>
      match TrimRight rest cutset with
      | EmptyString =>
          if inCutset c cutset then EmptyString else String c EmptyString
      | kept => String c kept
      end
  end.

Definition isPathSeparator (c : ascii) : bool := Ascii.eqb c "/"%char.

(** The loop of [filepath.Ext]: [i] runs down from the last byte and
    stops at a path separator; at the first ['.'] it returns [path[i:]].
    [before] is [path[:i+1]] reversed, [after] is [path[i+1:]]. *)
Fixpoint extScan (before : list ascii) (after : string) : string :=
  match before with
  | [] => EmptyString
  | c :: more =>
      if isPathSeparator c then EmptyString
      else if Ascii.eqb c "."%char then String c after
      else extScan more (String c after)
  end.

Definition Ext (path : string) : string :=
  extScan (rev (list_ascii_of_string path)) EmptyString.

End GoLib.

(** ** Effects: the trace and the monad *)

Inductive Event : Type :=
| EGet (url : string)            (* client.Get(url) was issued *)
| ESend (h : house)              (* out <- h *)
| EClose                         (* close(out) *)
| ELog (prefix msg : string)     (* logger.Printf, with the logger's prefix *)
| ECreate (name : string)        (* os.Create(name) succeeded *)
| ECopy (name body : string)     (* io.Copy(file, resp.Body) succeeded *)
| EDone.                         (* wg.Done() *)

Definition Trace : Type := list Event.

(** How a piece of code ends: it returns a value, or [log.Fatalf] ends the
    whole process with a message, or a nil pointer is dereferenced (a run-time
    panic, which ends the process too), or the model's loop bound is used up. *)
Inductive Res (A : Type) : Type :=
| Ok (a : A)
| Fatal (msg : string)
| Panic
| OutOfFuel.

Arguments Ok {A} a.
Arguments Fatal {A} msg.
Arguments Panic {A}.
Arguments OutOfFuel {A}.

Definition M (A : Type) : Type := Trace -> Res A * Trace.

Definition ret {A} (a : A) : M A := fun t => (Ok a, t).

Definition bind {A B} (m : M A) (k : A -> M B) : M B :=
  fun t =>
    match m t with
    | (Ok a, t') => k a t'
    | (Fatal msg, t') => (Fatal msg, t')
    | (Panic, t') => (Panic, t')
    | (OutOfFuel, t') => (OutOfFuel, t')
    end.

Definition emit (e : Event) : M unit := fun t => (Ok tt, t ++ [e]).


Definition logFatalf {A} (msg : string) : M A := fun t => (Fatal msg, t).

Definition nilDereference {A} : M A := fun t => (Panic, t).

Definition outOfFuel {A} : M A := fun t => (OutOfFuel, t).

Declare Scope go_scope.
Delimit Scope go_scope with go.
Notation "x <- m ;; k" := (bind m (fun x => k))
  (at level 61, m at next level, right associativity) : go_scope.
Notation "m ;;; k" := (bind m (fun _ => k))
  (at level 61, right associativity) : go_scope.
Local Open Scope go_scope.

(** ** The outside world *)

Definition event_is_get (url : string) (e : Event) : bool :=
  match e with
  | EGet u => String.eqb u url
  | _ => false
  end.

(** How many GETs of [url] the trace holds. *)
Definition getsOf (url : string) (t : Trace) : nat :=
  length (filter (event_is_get url) t).

(** [serverGet url n] is what the [n]-th GET of [url] (counting from 0)
    comes back with; [jsonDecode body] is the decoded page or the decoder's
    error; [osCreate name] and [ioCopy name body] are [Some err] when the
    file system refuses. *)
Record Env : Type := mkEnv {
  serverGet : string -> nat -> GetResult;
  jsonDecode : string -> string + houses;
  osCreate : string -> option string;
  ioCopy : string -> string -> option string
}.

Section Program.

Variable env : Env.

(** [client.Get(url)] *)
Definition clientGet (url : string) : M GetResult :=
  fun t => (Ok (serverGet env url (getsOf url t)), t ++ [EGet url]).

(** ** requestWithRetry *)

(** The function's local variables. *)
Record RetryVars : Type := mkRetryVars {
  resp : option Response;
  successful : bool;
  tries : Z;
  err : option string
}.

Definition retryVars0 : RetryVars := mkRetryVars None false 0 None.

Definition consistentlyFailing (url : string) : string :=
  ("endpoint " ++ url ++ " was consistently failing")%string.

(** The [for !successful] loop followed by [return resp, err]. *)
Fixpoint retryLoop (fuel : nat) (url : string) (v : RetryVars)
  : M (option Response * option string) :=
  match fuel with
  | O => outOfFuel
  | S fuel' =>
      if successful v then ret (resp v, err v)
      else if tries v >=? maxTries then logFatalf (consistentlyFailing url)
      else
        g <- clientGet url ;;
        let v1 := mkRetryVars (respOf g) (successful v) (tries v) (errOf g) in
        match g with
        | GetErr _ | GetRespErr _ _ =>
            ret (resp v1, err v1)                          (* err != nil: break *)
        | GetResp r =>
            if StatusCode r =? StatusOK
            then
              let v2 := mkRetryVars (resp v1) true (tries v1) (err v1) in
              ret (resp v2, err v2)                        (* successful: break *)
            else
              retryLoop fuel' url
                (mkRetryVars (resp v1) (successful v1) (tries v1 + 1) (err v1))
        end
  end.

Definition requestWithRetry (url : string)
  : M (option Response * option string) :=
  retryLoop (S (Z.to_nat maxTries)) url retryVars0.

(** ** pipeHouses *)

(** [fmt.Sprintf(endpoint, i)] *)
Definition pageEndpoint (i : Z) : string :=
  (endpointPrefix ++ GoLib.itoa i)%string.

Definition errorRequesting (url e : string) : string :=
  ("error requesting " ++ url ++ ": " ++ e)%string.

Definition errorDecoding (e : string) : string :=
  ("error decoding json response: " ++ e)%string.

(** [for _, house := range houses.Houses { out <- house }] *)
Fixpoint sendAll (hs : list house) : M unit :=
  match hs with
  | [] => ret tt
  | h :: rest => emit (ESend h) ;;; sendAll rest
  end.

(** One turn of the page loop. [defer resp.Body.Close()] dereferences
    [resp] on the spot; the deferred calls themselves run when the
    goroutine's function returns and leave no mark here. *)
Definition pipePage (i : Z) : M unit :=
  let url := pageEndpoint i in
  r <- requestWithRetry url ;;
  match snd r with
  | Some e => logFatalf (errorRequesting url e)
  | None =>
      match fst r with
      | None => nilDereference
      | Some rsp =>
          match jsonDecode env (Body rsp) with
          | inl e => logFatalf (errorDecoding e)
          | inr decoded => sendAll (Houses decoded)
          end
      end
  end.

(** [for i := 1; i <= 10; i++ { ... }] from the current [i] on. *)
Fixpoint pageLoop (fuel : nat) (i : Z) : M unit :=
  match fuel with
  | O => outOfFuel
  | S fuel' =>
      if i <=? 10 then pipePage i ;;; pageLoop fuel' (i + 1)
      else ret tt
  end.

(** The goroutine that [pipeHouses] starts. *)
Definition pipeHouses : M unit :=
  pageLoop 11 1 ;;; emit EClose.

(** ** The body of the download loop *)

(** [fmt.Sprintf("id-%d-%s.%s", ...)] *)
Definition fileName (h : house) : string :=
  ("id-" ++ GoLib.itoa (ID h) ++ "-" ++ GoLib.TrimRight (Address h) "."
     ++ "." ++ GoLib.Ext (PhotoURL h))%string.

Definition newline : ascii := ascii_of_nat 10.

(** How the statements between the receive and the end of the loop body
    leave: by falling off their end, or by one of the [return]s. *)
Inductive Flow : Type := FallThrough | Return.

(** The statements from [fileName := ...] to the end of the [io.Copy]
    block. They are the same, to the letter, in [downloadHouseImages] and
    in main.go's [downloadHouseImage]. *)
Definition downloadBody (h : house) : M Flow :=
  let name := fileName h in
  let prefix := String newline name in
  g <- clientGet (PhotoURL h) ;;
  match g with
  | GetErr e | GetRespErr _ e =>
      emit (ELog prefix ("error getting photo: " ++ e)) ;;; ret Return
  | GetResp rsp =>
      match osCreate env name with
      | Some e =>
          emit (ELog prefix ("could not create file: " ++ e)) ;;; ret Return
      | None =>
          emit (ECreate name) ;;;
          match ioCopy env name (Body rsp) with
          | Some e =>
              emit (ELog prefix ("error copying file contents: " ++ e)) ;;;
              ret Return
          | None =>
              emit (ECopy name (Body rsp)) ;;; ret FallThrough
          end
      end
  end.

(** main.go: [defer wg.Done()] runs however the body leaves. *)
Definition downloadHouseImage (h : house) : M unit :=
  _ <- downloadBody h ;; emit EDone.

(** How a worker's function ends: after the [break], through [wg.Done()];
    or by a [return] inside the loop, with [pending] still to come on the
    channel. *)
Inductive WorkerExit : Type :=
| Released
| Quit (pending : list house).

(** [downloadHouseImages(in)], for a worker to which [in] delivers
    [inp] and then reports the channel closed. *)
Fixpoint downloadHouseImages (inp : list house) : M WorkerExit :=
  match inp with
  | [] => emit EDone ;;; ret Released           (* !ok: break; wg.Done() *)
  | h :: rest =>
      f <- downloadBody h ;;
      match f with
      | FallThrough => downloadHouseImages rest
      | Return => ret (Quit rest)
      end
  end.

End Program.

(** ** The goroutines: main, the producer and the pool

    The producer goroutine is the only one that talks to the page endpoint,
    so what it does to the channel, in order, is read off its own run: the
    sends, the close, and the [log.Fatalf] that ends the process. The
    channel is unbuffered: a send happens together with the receive that
    takes it. *)

Inductive ChanOp : Type :=
| OpSend (h : house)
| OpClose
| OpFatal (msg : string).

Definition chanOpOf (e : Event) : list ChanOp :=
  match e with
  | ESend h => [OpSend h]
  | EClose => [OpClose]
  | _ => []
  end.

Definition chanOps (t : Trace) : list ChanOp := flat_map chanOpOf t.

Definition producerScript (env : Env) : list ChanOp :=
  match pipeHouses env [] with
  | (Fatal msg, t) => chanOps t ++ [OpFatal msg]
  | (_, t) => chanOps t
  end.

(** Where [main] stands: in its spawning loop with counter [i], in
    [wg.Wait()], or past it. *)
Inductive MainSt : Type :=
| MSpawning (i : Z)
| MWaiting
| MReturned.

(** A worker is in its loop, or has left it through [wg.Done()], or has left
    the function by a [return] inside the loop. *)
Inductive WorkerSt : Type :=
| WLooping
| WReleased
| WQuit.

(** [got] lists what the worker received, each record with its position in
    the sequence of sends. *)
Record Worker : Type := mkWorker {
  wstate : WorkerSt;
  got : list (nat * house)
}.

Record Sys : Type := mkSys {
  mainSt : MainSt;
  producer : list ChanOp;          (* what the producer has still to do *)
  emitted : list (nat * house);    (* the sends that have happened *)
  closed : bool;                   (* the channel *)
  pool : list Worker;
  wg : Z;                          (* the wait group's counter *)
  world : Trace;                   (* what the workers did *)
  exited : option Z                (* the process's exit code, once it ended *)
}.

Definition initSys (script : list ChanOp) : Sys :=
  mkSys (MSpawning 0) script [] false [] 0 [] None.

Inductive Choice : Type :=
| CMain
| CProducer
| CWorker (k : nat).

Fixpoint setWorker (k : nat) (w : Worker) (ws : list Worker) : list Worker :=
  match ws, k with
  | [], _ => []
  | _ :: rest, O => w :: rest
  | w0 :: rest, S k' => w0 :: setWorker k' w rest
  end.

Section Steps.

Variable env : Env.

Definition stepMain (s : Sys) : option Sys :=
  match mainSt s with
  | MSpawning i =>
      if i <? maxGoroutines
      then (* wg.Add(1); go downloadHouseImages(housesPipeline); i++ *)
        Some (mkSys (MSpawning (i + 1)) (producer s) (emitted s) (closed s)
                (pool s ++ [mkWorker WLooping []]) (wg s + 1) (world s)
                (exited s))
      else
        Some (mkSys MWaiting (producer s) (emitted s) (closed s) (pool s)
                (wg s) (world s) (exited s))
  | MWaiting =>
      if wg s =? 0
      then (* Wait returns, main returns, the process ends *)
        Some (mkSys MReturned (producer s) (emitted s) (closed s) (pool s)
                (wg s) (world s) (Some 0))
      else None
  | MReturned => None
  end.

Definition stepProducer (s : Sys) : option Sys :=
  match producer s with
  | [] => None
  | OpSend _ :: _ =>
      if closed s
      then (* send on a closed channel panics *)
        Some (mkSys (mainSt s) (producer s) (emitted s) (closed s) (pool s)
                (wg s) (world s) (Some 2))
      else None                       (* waits for a receiver *)
  | OpClose :: rest =>
      if closed s
      then (* close of a closed channel panics *)
        Some (mkSys (mainSt s) (producer s) (emitted s) (closed s) (pool s)
                (wg s) (world s) (Some 2))
      else
        Some (mkSys (mainSt s) rest (emitted s) true (pool s) (wg s)
                (world s) (exited s))
  | OpFatal _ :: _ =>
      Some (mkSys (mainSt s) (producer s) (emitted s) (closed s) (pool s)
              (wg s) (world s) (Some 1))
  end.

(** Worker [k] goes once round [for { if house, ok := <-in; ok ... } ]. *)
Definition stepWorker (k : nat) (s : Sys) : option Sys :=
  match nth_error (pool s) k with
  | Some (mkWorker WLooping rcvd) =>
      if closed s
      then (* ok is false: break; wg.Done() *)
        Some (mkSys (mainSt s) (producer s) (emitted s) (closed s)
                (setWorker k (mkWorker WReleased rcvd) (pool s))
                (wg s - 1) (world s ++ [EDone]) (exited s))
      else
        match producer s with
        | OpSend h :: rest =>
            let item := (length (emitted s), h) in
            match downloadBody env h (world s) with
            | (Ok FallThrough, t') =>
                Some (mkSys (mainSt s) rest (emitted s ++ [item]) (closed s)
                        (setWorker k (mkWorker WLooping (rcvd ++ [item])) (pool s))
                        (wg s) t' (exited s))
            | (Ok Return, t') =>
                Some (mkSys (mainSt s) rest (emitted s ++ [item]) (closed s)
                        (setWorker k (mkWorker WQuit (rcvd ++ [item])) (pool s))
                        (wg s) t' (exited s))
            | (_, t') =>
                Some (mkSys (mainSt s) rest (emitted s ++ [item]) (closed s)
                        (setWorker k (mkWorker WLooping (rcvd ++ [item])) (pool s))
                        (wg s) t' (Some 2))
            end
        | _ => None                   (* nothing to receive yet *)
        end
  | _ => None
  end.

(** One step of the goroutine the scheduler picks; [None] when that
    goroutine cannot move or the process has ended. A state in which no
    goroutine can move stays as it is: what the Go runtime does with a
    process whose goroutines are all blocked is not part of the model. *)
Definition step (c : Choice) (s : Sys) : option Sys :=
  match exited s with
  | Some _ => None
  | None =>
      match c with
      | CMain => stepMain s
      | CProducer => stepProducer s
      | CWorker k => stepWorker k s
      end
  end.

(** A schedule is run from left to right; a pick that cannot move is
    passed over. *)
Fixpoint run (sched : list Choice) (s : Sys) : Sys :=
  match sched with
  | [] => s
  | c :: more =>
      match step c s with
      | Some s' => run more s'
      | None => run more s
      end
  end.

End Steps.

(** The program as a whole. *)
Definition program (env : Env) (sched : list Choice) : Sys :=
  run env sched (initSys (producerScript env)).

(** ** Vocabulary for the statements *)

(** A response that the retry loop retries: one with a status other than
    200, and no error. *)
Definition isNon200 (g : GetResult) : bool :=
  match g with
  | GetResp r => negb (StatusCode r =? StatusOK)
  | _ => false
  end.

(** The next [K] GETs of [url], counted from the [from]-th, all come back
    with a status other than 200. *)
Definition retried (env : Env) (url : string) (from K : nat) : Prop :=
  forall n, (n < K)%nat -> isNon200 (serverGet env url (from + n)) = true.

(** The loop's variables on entry to a turn that has failed [k] times. *)
Definition atTries (k : Z) : RetryVars := mkRetryVars None false k None.

(** [n] page numbers in a row, from [i] on. *)
Fixpoint pagesFrom (i : Z) (n : nat) : list Z :=
  match n with
  | O => []
  | S n' => i :: pagesFrom (i + 1) n'
  end.

Definition pagesRange : list Z := pagesFrom 1 10.

(** Page [i] decodes to [hs]: the first answer of its endpoint that is not
    a status other than 200 comes within 20 attempts, is a 200, and its body
    decodes to a page whose houses array is [hs]. *)
Definition pageDecodesTo (env : Env) (i : Z) (hs : list house) : Prop :=
  exists (K : nat) (rsp : Response) (d : houses),
    (K < 20)%nat
    /\ retried env (pageEndpoint i) 0 K
    /\ serverGet env (pageEndpoint i) K = GetResp rsp
    /\ StatusCode rsp = StatusOK
    /\ jsonDecode env (Body rsp) = inr d
    /\ hs = Houses d.

(** The three conditions under which a page ends the process. *)
Inductive FatalCause : Type :=
| RetryBudgetExhausted
| FetchError (e : string)
| DecodeFailure (e : string).

Definition pageFailure (env : Env) (i : Z) (c : FatalCause) : Prop :=
  match c with
  | RetryBudgetExhausted =>
      retried env (pageEndpoint i) 0 20
  | FetchError e =>
      exists K : nat,
        (K < 20)%nat
        /\ retried env (pageEndpoint i) 0 K
        /\ errOf (serverGet env (pageEndpoint i) K) = Some e
  | DecodeFailure e =>
      exists (K : nat) (rsp : Response),
        (K < 20)%nat
        /\ retried env (pageEndpoint i) 0 K
        /\ serverGet env (pageEndpoint i) K = GetResp rsp
        /\ StatusCode rsp = StatusOK
        /\ jsonDecode env (Body rsp) = inl e
  end.

Definition fatalMessage (i : Z) (c : FatalCause) : string :=
  match c with
  | RetryBudgetExhausted => consistentlyFailing (pageEndpoint i)
  | FetchError e => errorRequesting (pageEndpoint i) e
  | DecodeFailure e => errorDecoding e
  end.

(** The records among a list of channel operations, in order. *)
Definition sendOf (o : ChanOp) : list house :=
  match o with
  | OpSend h => [h]
  | _ => []
  end.

Definition sendsOf (ops : list ChanOp) : list house := flat_map sendOf ops.

(** Everything the workers received, worker by worker. *)
Definition deliveries (s : Sys) : list (nat * house) :=
  concat (map got (pool s)).

(** Worker [k] received [item]. *)
Definition receivedBy (s : Sys) (k : nat) (item : nat * house) : Prop :=
  exists w, nth_error (pool s) k = Some w /\ In item (got w).

(** What holds of the channel in every state: the workers hold, between
    them, exactly the sends that happened; the sends are numbered in order;
    and they are the sends of the part of the script the producer is past. *)
Definition deliveryInv (script : list ChanOp) (s : Sys) : Prop :=
  Permutation (deliveries s) (emitted s)
  /\ map fst (emitted s) = seq 0 (length (emitted s))
  /\ exists past, script = past ++ producer s
                  /\ sendsOf past = map snd (emitted s).

(** The workers that the wait group still counts. *)
Definition notReleased (w : Worker) : bool :=
  match wstate w with
  | WReleased => false
  | _ => true
  end.

Definition unreleased (ws : list Worker) : nat :=
  length (filter notReleased ws).

(** Every GET of the house's photo comes back with an error. *)
Definition alwaysFails (env : Env) (h : house) : Prop :=
  forall n, exists e, errOf (serverGet env (PhotoURL h) n) = Some e.

(** What holds of the pool in every state of a run whose producer sends
    [hs] and then ends with [fin], a close or a fatal exit. *)
Definition poolInv (env : Env) (hs : list house) (fin : ChanOp) (s : Sys)
  : Prop :=
  (* the channel and the script *)
  ((closed s = false
    /\ exists rest, producer s = map OpSend rest ++ [fin]
                    /\ hs = map snd (emitted s) ++ rest)
   \/ (closed s = true /\ fin = OpClose /\ producer s = []
       /\ hs = map snd (emitted s)))
  (* the wait group counts the workers that did not call Done *)
  /\ wg s = Z.of_nat (unreleased (pool s))
  (* main *)
  /\ match mainSt s with
     | MSpawning i =>
         0 <= i <= maxGoroutines /\ Z.of_nat (length (pool s)) = i
         /\ exited s <> Some 0
     | MWaiting =>
         Z.of_nat (length (pool s)) = maxGoroutines /\ exited s <> Some 0
     | MReturned =>
         wg s = 0 /\ Z.of_nat (length (pool s)) = maxGoroutines
     end
  (* the exit code *)
  /\ (forall c, exited s = Some c ->
        c = 0 \/ (c = 1 /\ exists msg, fin = OpFatal msg))
  (* a worker calls Done only after the close *)
  /\ (forall w, In w (pool s) -> wstate w = WReleased -> closed s = true)
  (* a worker that received a record whose download always fails has quit *)
  /\ (forall w n h, In w (pool s) -> In (n, h) (got w) ->
        alwaysFails env h -> wstate w = WQuit).

(** The file name as the interface description words it: the id, the
    address without its trailing dots, one dot, and the extension of the
    photo URL (the bytes after its last dot). *)
Definition extensionOf (url : string) : string :=
  match GoLib.Ext url with
  | String _ e => e
  | EmptyString => EmptyString
  end.

Definition fileNamePattern (h : house) : string :=
  ("id-" ++ GoLib.itoa (ID h) ++ "-" ++ GoLib.TrimRight (Address h) "."
     ++ "." ++ extensionOf (PhotoURL h))%string.

(** ** Sample data *)

Module Sample.

Definition url : string := "http://api.test/houses?page=1"%string.

Definition busy : GetResult := GetResp (mkResponse 503 "busy").
Definition found302 : Response := mkResponse 302 "".
Definition tooManyRedirects : string := "stopped after 10 redirects"%string.
Definition timeout : string := "context deadline exceeded"%string.

Definition house7 : house :=
  mkHouse 7 "12 Main St." "Ada" 250000 "http://img.test/photos/a.jpg".

(** A decoder for toy page bodies: every byte of the body stands for one
    house; the body [!] does not decode. *)
Definition toyHouse (c : ascii) : house :=
  mkHouse (Z.of_nat (nat_of_ascii c)) "12 Main St." "owner" 100
    (String.append "http://img.test/" (String c ".jpg")).

Definition toyDecode (body : string) : string + houses :=
  if String.eqb body "!" then inl "unexpected end of JSON input"%string
  else inr (mkHouses (map toyHouse (list_ascii_of_string body))).

(** A server that answers 503 to the first [k] GETs of any URL and then
    200 with [body]. *)
Definition flakyThenOk (k : nat) (body : string) : Env :=
  mkEnv (fun _ n => if (n <? k)%nat then busy
                    else GetResp (mkResponse 200 body))
        toyDecode (fun _ => None) (fun _ _ => None).

(** A server that always answers 503. *)
Definition alwaysBusy : Env :=
  mkEnv (fun _ _ => busy) toyDecode (fun _ => None) (fun _ _ => None).

(** A server that answers 503 to the first [k] GETs and then times out. *)
Definition flakyThenTimeout (k : nat) : Env :=
  mkEnv (fun _ n => if (n <? k)%nat then busy else GetErr timeout)
        toyDecode (fun _ => None) (fun _ _ => None).

(** A server caught in a redirect loop: the client gives up and hands back
    the last response together with the error. *)
Definition loopingRedirects : Env :=
  mkEnv (fun _ _ => GetRespErr found302 tooManyRedirects)
        toyDecode (fun _ => None) (fun _ _ => None).

Definition houseA : house := toyHouse "a".
Definition houseB : house := toyHouse "b".

Definition jpeg : GetResult := GetResp (mkResponse 200 "JPEG").

(** A small deployment: page 1 answers 503 twice and then lists houses a
    and b, the other pages are empty; [photoA] is what the GET of house
    a's photo comes back with, [createA] and [copyA] what creating and
    filling house a's file come back with. Everything about house b
    works. *)
Definition api (photoA : GetResult) (createA copyA : option string) : Env :=
  mkEnv
    (fun u n =>
       if String.eqb u (pageEndpoint 1)
       then (if (n <? 2)%nat then busy else GetResp (mkResponse 200 "ab"))
       else if String.prefix endpointPrefix u
       then GetResp (mkResponse 200 "")
       else if String.eqb u (PhotoURL houseA) then photoA
       else jpeg)
    toyDecode
    (fun name => if String.eqb name (fileName houseA) then createA else None)
    (fun name _ => if String.eqb name (fileName houseA) then copyA else None).

Definition healthy : Env := api jpeg None None.
Definition photoDown : Env := api (GetErr timeout) None None.
Definition diskFull : Env :=
  api jpeg (Some "no space left on device"%string) None.
Definition copyBroken : Env :=
  api jpeg None (Some "unexpected EOF"%string).

(** main spawns its 20 workers and waits; workers 0 and 1 take one house
    each; the producer closes; every worker sees the close; main looks at
    the wait group again. *)
Definition schedule : list Choice :=
  repeat CMain 21 ++ [CWorker 0; CWorker 1; CProducer]
    ++ map CWorker (seq 0 20) ++ [CMain].

Definition notFound : GetResult := GetResp (mkResponse 404 "Not Found").

(** House a's photo is gone: the server answers 404 with a page of text. *)
Definition missingPhoto : Env := api notFound None None.

Definition house7again : house :=
  mkHouse 7 "12 Main St." "Bob" 1 "http://img.test/photos/a.jpg".

(** Page 1 lists 21 houses, one more than there are workers, and no photo can
    be fetched. *)
Definition manyHouses : string := "abcdefghijklmnopqrstu"%string.

Definition allDown : Env :=
  mkEnv
    (fun u n =>
       if String.eqb u (pageEndpoint 1)
       then GetResp (mkResponse 200 manyHouses)
       else if String.prefix endpointPrefix u
       then GetResp (mkResponse 200 "")
       else GetErr timeout)
    toyDecode (fun _ => None) (fun _ _ => None).

(** main spawns its 20 workers, then every worker takes one record. *)
Definition everyWorkerTakesOne : list Choice :=
  repeat CMain 21 ++ map CWorker (seq 0 20).

End Sample.

(** ** main.go: the earlier, non-pipelined program

    [main] first fetches every page into [allHouses], then starts one
    goroutine per house and waits for them. *)

Section EarlierProgram.

Variable env : Env.

(** One turn of main's first loop, up to the decoded page. *)
Definition fetchPage (i : Z) : M houses :=
  let url := pageEndpoint i in
  r <- requestWithRetry env url ;;
  match snd r with
  | Some e => logFatalf (errorRequesting url e)
  | None =>
      match fst r with
      | None => nilDereference
      | Some rsp =>
          match jsonDecode env (Body rsp) with
          | inl e => logFatalf (errorDecoding e)
          | inr decoded => ret decoded
          end
      end
  end.

(** [for i := 1; i <= 10; i++ { ...; allHouses = append(allHouses,
    houses.Houses...) }] from the current [i] and [allHouses] on. *)
Fixpoint fetchLoop (fuel : nat) (i : Z) (allHouses : list house)
  : M (list house) :=
  match fuel with
  | O => outOfFuel
  | S fuel' =>
      if i <=? 10
      then decoded <- fetchPage i ;;
           fetchLoop fuel' (i + 1) (allHouses ++ Houses decoded)
      else ret allHouses
  end.

Definition fetchAllHouses : M (list house) := fetchLoop 11 1 [].

End EarlierProgram.

(** What main prints after the first loop. *)
Definition totalMessage (allHouses : list house) : string :=
  ("there is a total of " ++ GoLib.itoa (Z.of_nat (length allHouses))
     ++ " houses")%string.

(** Where the earlier [main] stands in
    [for _, house := range allHouses { go downloadHouseImage(house); wg.Add(1) }]
    and after it: before the [go] of the first of [rest], between that [go]
    and its [wg.Add(1)], in [wg.Wait()], or past it. *)
Inductive FanMain : Type :=
| FGo (rest : list house)
| FAdd (rest : list house)
| FWait
| FReturned.

(** A goroutine that was started for a house, and whether it has run. *)
Record Task : Type := mkTask {
  thouse : house;
  tdone : bool
}.

Record Fan : Type := mkFan {
  fmain : FanMain;
  tasks : list Task;
  fwg : Z;                        (* the wait group's counter *)
  fworld : Trace;
  fexited : option Z
}.

Definition fanInit (allHouses : list house) (t : Trace) : Fan :=
  mkFan (FGo allHouses) [] 0 t None.

Inductive FanChoice : Type :=
| FMain
| FTask (k : nat).

Fixpoint markDone (k : nat) (ts : list Task) : list Task :=
  match ts, k with
  | [], _ => []
  | t :: rest, O => mkTask (thouse t) true :: rest
  | t :: rest, S k' => t :: markDone k' rest
  end.

Section FanSteps.

Variable env : Env.

Definition fanStepMain (s : Fan) : option Fan :=
  match fmain s with
  | FGo [] =>
      Some (mkFan FWait (tasks s) (fwg s) (fworld s) (fexited s))
  | FGo (h :: rest) =>                        (* go downloadHouseImage(house) *)
      Some (mkFan (FAdd rest) (tasks s ++ [mkTask h false]) (fwg s)
              (fworld s) (fexited s))
  | FAdd rest =>                              (* wg.Add(1) *)
      Some (mkFan (FGo rest) (tasks s) (fwg s + 1) (fworld s) (fexited s))
  | FWait =>
      if fwg s =? 0
      then Some (mkFan FReturned (tasks s) (fwg s) (fworld s) (Some 0))
      else None
  | FReturned => None
  end.

(** Goroutine [k] runs [downloadHouseImage]; its deferred [wg.Done()]
    panics when it takes the counter below zero. *)
Definition fanStepTask (k : nat) (s : Fan) : option Fan :=
  match nth_error (tasks s) k with
  | Some (mkTask h false) =>
      match downloadHouseImage env h (fworld s) with
      | (Ok _, t') =>
          Some (mkFan (fmain s) (markDone k (tasks s)) (fwg s - 1) t'
                  (if fwg s - 1 <? 0 then Some 2 else fexited s))
      | (_, t') =>
          Some (mkFan (fmain s) (markDone k (tasks s)) (fwg s) t' (Some 2))
      end
  | _ => None
  end.

Definition fanStep (c : FanChoice) (s : Fan) : option Fan :=
  match fexited s with
  | Some _ => None
  | None =>
      match c with
      | FMain => fanStepMain s
      | FTask k => fanStepTask k s
      end
  end.

Fixpoint fanRun (sched : list FanChoice) (s : Fan) : Fan :=
  match sched with
  | [] => s
  | c :: more =>
      match fanStep c s with
      | Some s' => fanRun more s'
      | None => fanRun more s
      end
  end.

End FanSteps.

(** The earlier program as a whole: the fetch, then the goroutines. *)
Definition earlierProgram (env : Env) (sched : list FanChoice) : Fan :=
  match fetchAllHouses env [] with
  | (Ok allHouses, t) => fanRun env sched (fanInit allHouses t)
  | (Fatal _, t) => mkFan (FGo []) [] 0 t (Some 1)
  | (_, t) => mkFan (FGo []) [] 0 t (Some 2)
  end.

(** ** More vocabulary *)

Definition event_is_done (e : Event) : bool :=
  match e with
  | EDone => true
  | _ => false
  end.

(** How many times [wg.Done()] was called. *)
Definition donesOf (t : Trace) : nat := length (filter event_is_done t).

Definition event_is_log (e : Event) : bool :=
  match e with
  | ELog _ _ => true
  | _ => false
  end.

Definition logsOf (t : Trace) : nat := length (filter event_is_log t).

(** The download of [h] works at every attempt: the GET comes back with a
    response and no error, the file is created and filled. *)
Definition neverFails (env : Env) (h : house) : Prop :=
  forall n, exists rsp,
    serverGet env (PhotoURL h) n = GetResp rsp
    /\ osCreate env (fileName h) = None
    /\ ioCopy env (fileName h) (Body rsp) = None.

Definition doneTasks (ts : list Task) : nat := length (filter tdone ts).

(** The schedule in which main runs its loop to the end before any
    goroutine moves. *)
Definition mainFirst (n : nat) : list FanChoice :=
  repeat FMain (2 * n + 1) ++ map FTask (seq 0 n) ++ [FMain].

(** The schedule of the pool in which worker 0 takes all [n] records. *)
Definition oneWorkerTakesAll (n : nat) : list Choice :=
  repeat CMain 21 ++ repeat (CWorker 0) n ++ [CProducer]
    ++ map CWorker (seq 0 20) ++ [CMain].

(** The houses main has still to start a goroutine for. *)
Definition pendingOf (m : FanMain) : list house :=
  match m with
  | FGo rest => rest
  | FAdd rest => rest
  | FWait => []
  | FReturned => []
  end.

(** The [wg.Add(1)] that main owes for the goroutine it has just started. *)
Definition owedAdd (m : FanMain) : Z :=
  match m with
  | FAdd _ => 1
  | _ => 0
  end.

(** What holds in every state of the earlier program's second phase, for
    the houses [hs] and the trace [t0] it starts from. *)
Definition fanInv (hs : list house) (t0 : Trace) (s : Fan) : Prop :=
  map thouse (tasks s) ++ pendingOf (fmain s) = hs
  /\ fwg s = Z.of_nat (length (tasks s)) - owedAdd (fmain s)
             - Z.of_nat (doneTasks (tasks s))
  /\ (fmain s = FReturned -> fwg s = 0)
  /\ (fexited s = Some 0 -> fmain s = FReturned)
  /\ donesOf (fworld s) = (donesOf t0 + doneTasks (tasks s))%nat
  /\ (forall k, In k (tasks s) -> tdone k = true ->
        In (EGet (PhotoURL (thouse k))) (fworld s)).

(** A string without the byte [-]. *)
Fixpoint noDash (s : string) : Prop :=
  match s with
  | EmptyString => True
  | String c rest => c <> "-"%char /\ noDash rest
  end.

(** ** requestWithRetry *)

Section RetryFacts.

Variable env : Env.
Variable url : string.

Lemma getsOf_app (u : string) (t t' : Trace) :
  getsOf u (t ++ t') = (getsOf u t + getsOf u t')%nat.
Proof.
  unfold getsOf. rewrite filter_app, length_app. reflexivity.
Qed.

Lemma getsOf_snoc_same (t : Trace) :
  getsOf url (t ++ [EGet url]) = S (getsOf url t).
Proof.
  rewrite getsOf_app. unfold getsOf at 2. simpl.
  rewrite String.eqb_refl. simpl. lia.
Qed.

Lemma getsOf_repeat (K : nat) :
  getsOf url (repeat (EGet url) K) = K.
Proof.
  induction K as [|K IH]; [reflexivity|].
  unfold getsOf in *. simpl. rewrite String.eqb_refl. simpl. congruence.
Qed.

Lemma repeat_snoc (K : nat) :
  repeat (EGet url) K ++ [EGet url] = repeat (EGet url) (S K).
Proof. rewrite <- repeat_cons. reflexivity. Qed.

(** With [successful] false, a turn of the loop looks only at [tries]. *)
Lemma retryLoop_vars (fuel : nat) (v : RetryVars) (t : Trace) :
  successful v = false ->
  retryLoop env fuel url v t = retryLoop env fuel url (atTries (tries v)) t.
Proof.
  intros Hs. destruct fuel as [|fuel]; [reflexivity|].
  simpl. rewrite Hs. reflexivity.
Qed.

(** One retried turn. *)
Lemma retryLoop_retry (fuel : nat) (k : Z) (t : Trace) :
  k < maxTries ->
  isNon200 (serverGet env url (getsOf url t)) = true ->
  retryLoop env (S fuel) url (atTries k) t
  = retryLoop env fuel url (atTries (k + 1)) (t ++ [EGet url]).
Proof.
  intros Hk Hn. simpl.
  destruct (k >=? maxTries) eqn:E; [lia|].
  unfold bind, clientGet.
  destruct (serverGet env url (getsOf url t)) as [r|e|r e]; try discriminate.
  simpl in Hn. simpl.
  destruct (StatusCode r =? StatusOK); [discriminate|].
  apply retryLoop_vars. reflexivity.
Qed.

(** [K] retried turns in a row. *)
Lemma retryLoop_retries (K : nat) : forall (fuel : nat) (k : Z) (t : Trace),
  k + Z.of_nat K <= maxTries ->
  retried env url (getsOf url t) K ->
  retryLoop env (K + fuel) url (atTries k) t
  = retryLoop env fuel url (atTries (k + Z.of_nat K))
      (t ++ repeat (EGet url) K).
Proof.
  induction K as [|K IH]; intros fuel k t Hk Hr.
  - simpl. rewrite app_nil_r, Z.add_0_r. reflexivity.
  - change (S K + fuel)%nat with (S (K + fuel)).
    rewrite retryLoop_retry.
    + rewrite IH.
      * rewrite <- app_assoc. simpl.
        replace (k + 1 + Z.of_nat K) with (k + Z.of_nat (S K)) by lia.
        reflexivity.
      * lia.
      * intros n Hn. rewrite getsOf_snoc_same.
        replace (S (getsOf url t) + n)%nat with (getsOf url t + S n)%nat by lia.
        apply Hr. lia.
    + lia.
    + specialize (Hr O). rewrite Nat.add_0_r in Hr. apply Hr. lia.
Qed.

(** The turn that ends the loop: the GET comes back with 200, or with an
    error, or the budget is used up before it is issued. *)
Lemma retryLoop_ok (fuel : nat) (k : Z) (t : Trace) (r : Response) :
  k < maxTries ->
  serverGet env url (getsOf url t) = GetResp r ->
  StatusCode r = StatusOK ->
  retryLoop env (S fuel) url (atTries k) t
  = (Ok (Some r, None), t ++ [EGet url]).
Proof.
  intros Hk Hg Hs. simpl.
  destruct (k >=? maxTries) eqn:E; [lia|].
  unfold bind, clientGet. rewrite Hg. simpl.
  rewrite Hs. reflexivity.
Qed.

Lemma retryLoop_err (fuel : nat) (k : Z) (t : Trace) (e : string) :
  k < maxTries ->
  errOf (serverGet env url (getsOf url t)) = Some e ->
  retryLoop env (S fuel) url (atTries k) t
  = (Ok (respOf (serverGet env url (getsOf url t)), Some e), t ++ [EGet url]).
Proof.
  intros Hk Hg. simpl.
  destruct (k >=? maxTries) eqn:E; [lia|].
  unfold bind, clientGet.
  destruct (serverGet env url (getsOf url t)) as [r|e'|r e'];
    simpl in *; try discriminate; inversion Hg; reflexivity.
Qed.

Lemma retryLoop_fatal (fuel : nat) (k : Z) (t : Trace) :
  maxTries <= k ->
  retryLoop env (S fuel) url (atTries k) t
  = (Fatal (consistentlyFailing url), t).
Proof.
  intros Hk. simpl.
  destruct (k >=? maxTries) eqn:E; [reflexivity|lia].
Qed.

(** The three ways [requestWithRetry] ends. *)
Lemma request_ok (t : Trace) (K : nat) (r : Response) :
  (K < 20)%nat ->
  retried env url (getsOf url t) K ->
  serverGet env url (getsOf url t + K) = GetResp r ->
  StatusCode r = StatusOK ->
  requestWithRetry env url t
  = (Ok (Some r, None), t ++ repeat (EGet url) (S K)).
Proof.
  intros HK Hr Hg Hs. unfold requestWithRetry.
  change retryVars0 with (atTries 0).
  replace (S (Z.to_nat maxTries)) with (K + S (20 - K))%nat
    by (unfold maxTries; lia).
  rewrite retryLoop_retries; [|unfold maxTries; lia|assumption].
  rewrite (retryLoop_ok _ _ _ r).
  - rewrite <- app_assoc, repeat_snoc. reflexivity.
  - unfold maxTries; lia.
  - rewrite getsOf_app, getsOf_repeat. assumption.
  - assumption.
Qed.

Lemma request_err (t : Trace) (K : nat) (e : string) :
  (K < 20)%nat ->
  retried env url (getsOf url t) K ->
  errOf (serverGet env url (getsOf url t + K)) = Some e ->
  requestWithRetry env url t
  = (Ok (respOf (serverGet env url (getsOf url t + K)), Some e),
     t ++ repeat (EGet url) (S K)).
Proof.
  intros HK Hr Hg. unfold requestWithRetry.
  change retryVars0 with (atTries 0).
  replace (S (Z.to_nat maxTries)) with (K + S (20 - K))%nat
    by (unfold maxTries; lia).
  rewrite retryLoop_retries; [|unfold maxTries; lia|assumption].
  rewrite (retryLoop_err _ _ _ e).
  - rewrite <- app_assoc, getsOf_app, getsOf_repeat, repeat_snoc.
    reflexivity.
  - unfold maxTries; lia.
  - rewrite getsOf_app, getsOf_repeat. assumption.
Qed.

Lemma request_fatal (t : Trace) :
  retried env url (getsOf url t) 20 ->
  requestWithRetry env url t
  = (Fatal (consistentlyFailing url), t ++ repeat (EGet url) 20).
Proof.
  intros Hr. unfold requestWithRetry.
  change retryVars0 with (atTries 0).
  change (S (Z.to_nat maxTries)) with (20 + 1)%nat.
  rewrite retryLoop_retries; [|unfold maxTries; lia|assumption].
  apply retryLoop_fatal. unfold maxTries. lia.
Qed.

(** Either the next [N] GETs are all retried, or there is a first one
    among them that is not. *)
Lemma first_settled (from N : nat) :
  retried env url from N \/
  exists K, (K < N)%nat /\ retried env url from K /\
            isNon200 (serverGet env url (from + K)) = false.
Proof.
  induction N as [|N IH].
  - left. intros n Hn. lia.
  - destruct IH as [Hall | (K & HK & Hr & Hs)].
    + destruct (isNon200 (serverGet env url (from + N))) eqn:E.
      * left. intros n Hn.
        destruct (Nat.eq_dec n N) as [->|Hne]; [assumption|].
        apply Hall. lia.
      * right. exists N. repeat split; [lia|assumption|assumption].
    + right. exists K. repeat split; [lia|assumption|assumption].
Qed.

(** A GET that is not retried came back with 200 or with an error. *)
Lemma settled_cases (g : GetResult) :
  isNon200 g = false ->
  (exists r, g = GetResp r /\ StatusCode r = StatusOK) \/
  (exists e, errOf g = Some e).
Proof.
  destruct g as [r|e|r e]; simpl; intros H.
  - left. exists r. split; [reflexivity|].
    apply negb_false_iff in H. apply Z.eqb_eq in H. exact H.
  - right. exists e. reflexivity.
  - right. exists e. reflexivity.
Qed.

(** [requestWithRetry] always ends, and in one of three ways. *)
Lemma request_cases (t : Trace) :
  (exists K r, (K < 20)%nat /\ retried env url (getsOf url t) K /\
      serverGet env url (getsOf url t + K) = GetResp r /\
      StatusCode r = StatusOK /\
      requestWithRetry env url t
      = (Ok (Some r, None), t ++ repeat (EGet url) (S K)))
  \/ (exists K e, (K < 20)%nat /\ retried env url (getsOf url t) K /\
      errOf (serverGet env url (getsOf url t + K)) = Some e /\
      requestWithRetry env url t
      = (Ok (respOf (serverGet env url (getsOf url t + K)), Some e),
         t ++ repeat (EGet url) (S K)))
  \/ (retried env url (getsOf url t) 20 /\
      requestWithRetry env url t
      = (Fatal (consistentlyFailing url), t ++ repeat (EGet url) 20)).
Proof.
  destruct (first_settled (getsOf url t) 20) as [Hall | (K & HK & Hr & Hs)].
  - right. right. split; [assumption|]. apply request_fatal. assumption.
  - destruct (settled_cases _ Hs) as [(r & Hg & Hst) | (e & He)].
    + left. exists K, r. repeat split; try assumption.
      apply request_ok; assumption.
    + right. left. exists K, e. repeat split; try assumption.
      apply request_err; assumption.
Qed.

End RetryFacts.

(** C4: if the endpoint answers with a status other than 200 to exactly the
    first K requests, K below the maximum of 20 tries, and with 200 OK to
    request K+1, then requestWithRetry returns that response with a nil error
    after exactly K+1 GETs. *)
Theorem requestWithRetry_retries_then_succeeds :
  forall (env : Env) (url : string) (t : Trace) (K : nat) (r : Response),
    Z.of_nat K < maxTries ->
    retried env url (getsOf url t) K ->
    serverGet env url (getsOf url t + K) = GetResp r ->
    StatusCode r = StatusOK ->
    requestWithRetry env url t
    = (Ok (Some r, None), t ++ repeat (EGet url) (K + 1)).
Proof.
  intros env url t K r HK Hr Hg Hs.
  rewrite Nat.add_1_r. apply request_ok; try assumption.
  unfold maxTries in HK. lia.
Qed.

Lemma requestWithRetry_retries_then_succeeds_witness :
  requestWithRetry (Sample.flakyThenOk 19 "ab") Sample.url []
  = (Ok (Some (mkResponse 200 "ab"), None), repeat (EGet Sample.url) 20).
Proof.
  apply (requestWithRetry_retries_then_succeeds
           (Sample.flakyThenOk 19 "ab") Sample.url [] 19 (mkResponse 200 "ab")).
  - unfold maxTries. lia.
  - intros n Hn. simpl.
    destruct (Nat.ltb_spec n 19) as [_|Hge]; [reflexivity|lia].
  - reflexivity.
  - reflexivity.
Defined.

(** C5: if the endpoint answers every attempt with a status other than 200,
    requestWithRetry ends the process through log.Fatalf, with a message that
    names the URL, after exactly 20 GETs: not before the 20th and without a
    21st. *)
Theorem requestWithRetry_fatal_after_max_tries :
  forall (env : Env) (url : string) (t : Trace),
    retried env url (getsOf url t) (Z.to_nat maxTries) ->
    requestWithRetry env url t
    = (Fatal ("endpoint " ++ url ++ " was consistently failing")%string,
       t ++ repeat (EGet url) 20).
Proof.
  intros env url t Hr. apply request_fatal. exact Hr.
Qed.

Lemma requestWithRetry_fatal_after_max_tries_witness :
  requestWithRetry Sample.alwaysBusy Sample.url []
  = (Fatal "endpoint http://api.test/houses?page=1 was consistently failing"%string,
     repeat (EGet Sample.url) 20).
Proof.
  apply (requestWithRetry_fatal_after_max_tries Sample.alwaysBusy Sample.url []).
  intros n Hn. reflexivity.
Defined.

(** C6: a GET that comes back with a transport error and no response ends
    the retry loop at once: requestWithRetry returns that error and issues no
    further GET, while the responses with a status other than 200 before it
    were each retried. *)
Theorem requestWithRetry_transport_error_not_retried :
  forall (env : Env) (url : string) (t : Trace) (K : nat) (e : string),
    Z.of_nat K < maxTries ->
    retried env url (getsOf url t) K ->
    serverGet env url (getsOf url t + K) = GetErr e ->
    requestWithRetry env url t
    = (Ok (None, Some e), t ++ repeat (EGet url) (K + 1)).
Proof.
  intros env url t K e HK Hr Hg.
  rewrite Nat.add_1_r.
  rewrite (request_err env url t K e); try assumption.
  - rewrite Hg. reflexivity.
  - unfold maxTries in HK. lia.
  - rewrite Hg. reflexivity.
Qed.

Lemma requestWithRetry_transport_error_not_retried_witness :
  requestWithRetry (Sample.flakyThenTimeout 0) Sample.url []
  = (Ok (None, Some Sample.timeout), [EGet Sample.url])
  /\ requestWithRetry (Sample.flakyThenTimeout 2) Sample.url []
  = (Ok (None, Some Sample.timeout), repeat (EGet Sample.url) 3).
Proof.
  split.
  - apply (requestWithRetry_transport_error_not_retried
             (Sample.flakyThenTimeout 0) Sample.url [] 0 Sample.timeout).
    + unfold maxTries. lia.
    + intros n Hn. lia.
    + reflexivity.
  - apply (requestWithRetry_transport_error_not_retried
             (Sample.flakyThenTimeout 2) Sample.url [] 2 Sample.timeout).
    + unfold maxTries. lia.
    + intros n Hn. simpl.
      destruct (Nat.ltb_spec n 2) as [_|Hge]; [reflexivity|lia].
    + reflexivity.
Defined.

(** C10, as stated, fails: when the client hands back a response together
    with its error (a redirect loop), requestWithRetry returns a non-nil
    error and a non-nil response. *)
Lemma requestWithRetry_error_with_response :
  requestWithRetry Sample.loopingRedirects Sample.url []
  = (Ok (Some Sample.found302, Some Sample.tooManyRedirects), [EGet Sample.url])
  /\ Some Sample.tooManyRedirects <> None
  /\ Some Sample.found302 <> None.
Proof.
  split; [reflexivity|]. split; discriminate.
Qed.

(** C10, amended: when requestWithRetry returns with a nil error, the
    response is non-nil and its status is 200; when it returns a non-nil
    error, the response and the error are the pair that the last GET came
    back with, so the response is nil exactly when that GET had none. *)
Theorem requestWithRetry_result_shape :
  forall (env : Env) (url : string) (t t' : Trace)
         (r : option Response) (e : option string),
    requestWithRetry env url t = (Ok (r, e), t') ->
    (e = None -> exists rsp, r = Some rsp /\ StatusCode rsp = StatusOK)
    /\ (e <> None ->
        exists K, (K < 20)%nat
          /\ t' = t ++ repeat (EGet url) (S K)
          /\ r = respOf (serverGet env url (getsOf url t + K))
          /\ e = errOf (serverGet env url (getsOf url t + K))).
Proof.
  intros env url t t' r e Hrun.
  destruct (request_cases env url t)
    as [(K & rsp & HK & _ & Hg & Hs & Heq)
       | [(K & e0 & HK & _ & He & Heq) | (_ & Heq)]];
    rewrite Heq in Hrun; inversion Hrun; subst; clear Hrun.
  - split; [intros _; exists rsp; split; [reflexivity|assumption]|].
    intros Hne. contradiction.
  - split; [discriminate|].
    intros _. exists K. repeat split; [assumption|symmetry; assumption].
Qed.

Lemma requestWithRetry_result_shape_witness :
  (Some Sample.tooManyRedirects = None ->
     exists rsp, Some Sample.found302 = Some rsp /\ StatusCode rsp = StatusOK)
  /\ (Some Sample.tooManyRedirects <> None ->
      exists K, (K < 20)%nat
        /\ [EGet Sample.url] = [] ++ repeat (EGet Sample.url) (S K)
        /\ Some Sample.found302
           = respOf (serverGet Sample.loopingRedirects Sample.url
                       (getsOf Sample.url [] + K))
        /\ Some Sample.tooManyRedirects
           = errOf (serverGet Sample.loopingRedirects Sample.url
                      (getsOf Sample.url [] + K))).
Proof.
  apply (requestWithRetry_result_shape Sample.loopingRedirects Sample.url
           [] [EGet Sample.url]).
  reflexivity.
Defined.

(** ** pipeHouses *)

Section PipeFacts.

Variable env : Env.

Lemma itoa_inj (i j : Z) : GoLib.itoa i = GoLib.itoa j -> i = j.
Proof.
  unfold GoLib.itoa. intros H.
  apply DecimalZ.to_int_inj.
  assert (Hnn : forall z, Z.to_int z <> Decimal.Pos Decimal.Nil
                       /\ Z.to_int z <> Decimal.Neg Decimal.Nil).
  { intros [|p|p]; simpl; split; try discriminate;
      intros E; inversion E as [E'];
      exact (DecimalPos.Unsigned.to_uint_nonnil p E'). }
  destruct (Hnn i) as [Hi1 Hi2]. destruct (Hnn j) as [Hj1 Hj2].
  pose proof (NilZero.isi _ Hi1 Hi2) as Ei.
  pose proof (NilZero.isi _ Hj1 Hj2) as Ej.
  rewrite H in Ei. congruence.
Qed.

Lemma append_inj (p a b : string) :
  String.append p a = String.append p b -> a = b.
Proof.
  induction p as [|c p IH]; simpl; intros H; [assumption|].
  inversion H. auto.
Qed.

Lemma pageEndpoint_inj (i j : Z) : pageEndpoint i = pageEndpoint j -> i = j.
Proof.
  unfold pageEndpoint. intros H. apply itoa_inj. eapply append_inj. exact H.
Qed.

Lemma getsOf_other_repeat (u v : string) (K : nat) :
  u <> v -> getsOf u (repeat (EGet v) K) = O.
Proof.
  intros Hne. induction K as [|K IH]; [reflexivity|].
  unfold getsOf in *. simpl.
  destruct (String.eqb_spec v u) as [->|_]; [contradiction|assumption].
Qed.

Lemma getsOf_sends (u : string) (hs : list house) :
  getsOf u (map ESend hs) = O.
Proof. induction hs as [|h hs IH]; [reflexivity|exact IH]. Qed.

Lemma chanOps_app (t t' : Trace) : chanOps (t ++ t') = chanOps t ++ chanOps t'.
Proof. apply flat_map_app. Qed.

Lemma chanOps_gets (u : string) (K : nat) : chanOps (repeat (EGet u) K) = [].
Proof. induction K as [|K IH]; [reflexivity|exact IH]. Qed.

Lemma chanOps_sends (hs : list house) : chanOps (map ESend hs) = map OpSend hs.
Proof.
  induction hs as [|h hs IH]; [reflexivity|].
  change (chanOps (map ESend (h :: hs)))
    with (OpSend h :: chanOps (map ESend hs)).
  rewrite IH. reflexivity.
Qed.

Lemma sendAll_run (hs : list house) : forall t : Trace,
  sendAll hs t = (Ok tt, t ++ map ESend hs).
Proof.
  induction hs as [|h hs IH]; intros t; simpl.
  - unfold ret. rewrite app_nil_r. reflexivity.
  - unfold bind, emit. rewrite IH, <- app_assoc. reflexivity.
Qed.

(** One page, from a trace that has no GET of that page yet: it is sent,
    or it ends the process for one of the three causes. *)
Lemma pipePage_cases (i : Z) (t : Trace) :
  getsOf (pageEndpoint i) t = O ->
  (exists hs K,
      pageDecodesTo env i hs
      /\ pipePage env i t
         = (Ok tt, t ++ repeat (EGet (pageEndpoint i)) K ++ map ESend hs))
  \/ (exists c K,
      pageFailure env i c
      /\ pipePage env i t
         = (Fatal (fatalMessage i c), t ++ repeat (EGet (pageEndpoint i)) K)).
Proof.
  intros H0. unfold pipePage, bind.
  destruct (request_cases env (pageEndpoint i) t)
    as [(K & rsp & HK & Hr & Hg & Hs & Heq)
       | [(K & e & HK & Hr & He & Heq) | (Hr & Heq)]];
    rewrite Heq; rewrite H0 in *; simpl in *.
  - destruct (jsonDecode env (Body rsp)) as [e|d] eqn:Hd.
    + right. exists (DecodeFailure e), (S K). split; [|reflexivity].
      exists K, rsp. repeat split; assumption.
    + left. exists (Houses d), (S K). split.
      * exists K, rsp, d. repeat split; assumption.
      * rewrite sendAll_run, <- app_assoc. reflexivity.
  - right. exists (FetchError e), (S K). split; [|reflexivity].
    exists K. repeat split; assumption.
  - right. exists RetryBudgetExhausted, 20%nat. split; [assumption|reflexivity].
Qed.

(** The page loop with [n] pages to go. *)
Lemma pageLoop_run (n : nat) : forall (i : Z) (t : Trace),
  i + Z.of_nat n = 11 ->
  (forall j, i <= j <= 10 -> getsOf (pageEndpoint j) t = O) ->
  (exists pages t',
      Forall2 (pageDecodesTo env) (pagesFrom i n) pages
      /\ pageLoop env (S n) i t = (Ok tt, t')
      /\ chanOps t' = chanOps t ++ map OpSend (concat pages))
  \/ (exists (m : nat) c pages t',
      (m < n)%nat
      /\ pageFailure env (i + Z.of_nat m) c
      /\ Forall2 (pageDecodesTo env) (pagesFrom i m) pages
      /\ pageLoop env (S n) i t = (Fatal (fatalMessage (i + Z.of_nat m) c), t')
      /\ chanOps t' = chanOps t ++ map OpSend (concat pages)).
Proof.
  induction n as [|n IH]; intros i t Hi Hfresh.
  - left. exists [], t. split; [constructor|]. split.
    + simpl. destruct (Z.leb_spec i 10); [lia|reflexivity].
    + rewrite app_nil_r. reflexivity.
  - assert (Hle : i <= 10) by lia.
    change (pageLoop env (S (S n)) i t)
      with ((if i <=? 10 then pipePage env i ;;; pageLoop env (S n) (i + 1)
             else ret tt) t).
    destruct (Z.leb_spec i 10) as [_|]; [|lia].
    unfold bind.
    destruct (pipePage_cases i t) as [(hs & K & Hd & Heq) | (c & K & Hf & Heq)];
      [apply Hfresh; lia| |]; rewrite Heq.
    + destruct (IH (i + 1)
                  (t ++ repeat (EGet (pageEndpoint i)) K ++ map ESend hs))
        as [(pages & t' & HF & Hrun & Hops)
           | (m & c & pages & t' & Hm & Hf & HF & Hrun & Hops)].
      * lia.
      * intros j Hj. rewrite !getsOf_app, getsOf_sends, getsOf_other_repeat.
        -- rewrite Hfresh; [reflexivity|lia].
        -- intros E. apply pageEndpoint_inj in E. lia.
      * left. exists (hs :: pages), t'. split; [constructor; assumption|].
        split; [assumption|].
        rewrite Hops, !chanOps_app, chanOps_gets, chanOps_sends.
        simpl. rewrite map_app, <- app_assoc. reflexivity.
      * right. exists (S m), c, (hs :: pages), t'.
        replace (i + Z.of_nat (S m)) with (i + 1 + Z.of_nat m) by lia.
        split; [lia|]. split; [assumption|].
        split; [constructor; assumption|]. split; [assumption|].
        rewrite Hops, !chanOps_app, chanOps_gets, chanOps_sends.
        simpl. rewrite map_app, <- app_assoc. reflexivity.
    + right. exists O, c, [], (t ++ repeat (EGet (pageEndpoint i)) K).
      rewrite Z.add_0_r. split; [lia|]. split; [assumption|].
      split; [constructor|]. split; [reflexivity|].
      rewrite chanOps_app, chanOps_gets. reflexivity.
Qed.

(** The producer as a whole: it sends every page and closes, or it ends
    the process at the first page that fails. *)
Lemma pipeHouses_run :
  (exists pages t,
      Forall2 (pageDecodesTo env) pagesRange pages
      /\ pipeHouses env [] = (Ok tt, t)
      /\ chanOps t = map OpSend (concat pages) ++ [OpClose])
  \/ (exists (m : nat) c pages t,
      (m < 10)%nat
      /\ pageFailure env (1 + Z.of_nat m) c
      /\ Forall2 (pageDecodesTo env) (pagesFrom 1 m) pages
      /\ pipeHouses env [] = (Fatal (fatalMessage (1 + Z.of_nat m) c), t)
      /\ chanOps t = map OpSend (concat pages)).
Proof.
  unfold pipeHouses, bind.
  destruct (pageLoop_run 10 1 [])
    as [(pages & t' & HF & Hrun & Hops)
       | (m & c & pages & t' & Hm & Hf & HF & Hrun & Hops)];
    [lia|reflexivity| |]; rewrite Hrun.
  - left. exists pages, (t' ++ [EClose]). split; [assumption|].
    split; [reflexivity|].
    rewrite chanOps_app, Hops. reflexivity.
  - right. exists m, c, pages, t'. repeat split; assumption.
Qed.

(** The first answer that is not retried is one answer. *)
Lemma settled_unique (url : string) (from K K' : nat) :
  retried env url from K ->
  isNon200 (serverGet env url (from + K)) = false ->
  retried env url from K' ->
  isNon200 (serverGet env url (from + K')) = false ->
  K = K'.
Proof.
  intros Hr Hs Hr' Hs'.
  destruct (Nat.lt_trichotomy K K') as [Hlt | [Heq | Hgt]]; [|assumption|].
  - specialize (Hr' K Hlt). congruence.
  - specialize (Hr K' Hgt). congruence.
Qed.

Lemma resp200_settled (g : GetResult) (r : Response) :
  g = GetResp r -> StatusCode r = StatusOK -> isNon200 g = false.
Proof.
  intros -> Hs. simpl. rewrite Hs. reflexivity.
Qed.

Lemma error_settled (g : GetResult) (e : string) :
  errOf g = Some e -> isNon200 g = false.
Proof. destruct g; simpl; intros H; [discriminate|reflexivity|reflexivity]. Qed.


(** A page that decodes does not fail, whatever the cause. *)
Lemma pageFailure_not_decoded (i : Z) (c : FatalCause) (hs : list house) :
  pageFailure env i c -> pageDecodesTo env i hs -> False.
Proof.
  intros Hf (K & r & d & HK & Hr & Hg & Hs & Hd & _).
  pose proof (resp200_settled _ _ Hg Hs) as Hset.
  destruct c as [|e|e]; simpl in Hf.
  - specialize (Hf K HK). simpl in Hf. congruence.
  - destruct Hf as (K' & _ & Hr' & He).
    assert (K = K') as <-.
    { apply (settled_unique (pageEndpoint i) 0); try assumption.
      eapply error_settled; eassumption. }
    simpl in He. rewrite Hg in He. discriminate.
  - destruct Hf as (K' & r' & _ & Hr' & Hg' & Hs' & Hd').
    assert (K = K') as <-.
    { apply (settled_unique (pageEndpoint i) 0); try assumption.
      eapply resp200_settled; eassumption. }
    simpl in Hg'. congruence.
Qed.

(** A page fails for one cause only. *)
Lemma pageFailure_unique (i : Z) (c c' : FatalCause) :
  pageFailure env i c -> pageFailure env i c' -> c = c'.
Proof.
  assert (Hex : forall K, (K < 20)%nat ->
            retried env (pageEndpoint i) 0 20 ->
            isNon200 (serverGet env (pageEndpoint i) K) = false -> False).
  { intros K HK Hall Hs. specialize (Hall K HK). simpl in Hall. congruence. }
  assert (Hsame : forall K K',
            retried env (pageEndpoint i) 0 K ->
            isNon200 (serverGet env (pageEndpoint i) K) = false ->
            retried env (pageEndpoint i) 0 K' ->
            isNon200 (serverGet env (pageEndpoint i) K') = false -> K = K').
  { intros K K' H1 H2 H3 H4.
    apply (settled_unique (pageEndpoint i) 0); assumption. }
  destruct c as [|e|e], c' as [|e'|e']; simpl; intros Hf Hf';
    try reflexivity.
  - destruct Hf' as (K & HK & _ & He). exfalso.
    eapply Hex; eauto using error_settled.
  - destruct Hf' as (K & r & HK & _ & Hg & Hs & _). exfalso.
    eapply Hex; eauto using resp200_settled.
  - destruct Hf as (K & HK & _ & He). exfalso.
    eapply Hex; eauto using error_settled.
  - destruct Hf as (K & _ & Hr & He). destruct Hf' as (K' & _ & Hr' & He').
    assert (K = K') as <- by eauto using error_settled.
    congruence.
  - destruct Hf as (K & _ & Hr & He).
    destruct Hf' as (K' & r' & _ & Hr' & Hg' & Hs' & _).
    assert (K = K') as <- by eauto using error_settled, resp200_settled.
    rewrite Hg' in He. discriminate.
  - destruct Hf as (K & r & HK & _ & Hg & Hs & _). exfalso.
    eapply Hex; eauto using resp200_settled.
  - destruct Hf' as (K & _ & Hr & He).
    destruct Hf as (K' & r' & _ & Hr' & Hg' & Hs' & _).
    assert (K = K') as <- by eauto using error_settled, resp200_settled.
    rewrite Hg' in He. discriminate.
  - destruct Hf as (K & r & _ & Hr & Hg & Hs & Hd).
    destruct Hf' as (K' & r' & _ & Hr' & Hg' & Hs' & Hd').
    assert (K = K') as <- by eauto using resp200_settled.
    congruence.
Qed.

Lemma Forall2_pagesFrom (P : Z -> list house -> Prop) (n : nat) :
  forall (i : Z) (pages : list (list house)),
    Forall2 P (pagesFrom i n) pages ->
    forall j, i <= j < i + Z.of_nat n -> exists hs, P j hs.
Proof.
  induction n as [|n IH]; intros i pages HF j Hj; [lia|].
  simpl in HF. inversion HF as [|x hs xs rest Hx Hrest]; subst.
  destruct (Z.eq_dec j i) as [->|Hne]; [exists hs; assumption|].
  apply (IH (i + 1) rest Hrest). lia.
Qed.



(** The producer ends the process exactly when a page fails, for one of
    the three causes, after the pages before it were sent. *)
Lemma pipeHouses_fatal_iff (msg : string) :
  (exists t, pipeHouses env [] = (Fatal msg, t))
  <-> (exists i c,
         1 <= i <= 10
         /\ (forall j, 1 <= j < i -> exists hs, pageDecodesTo env j hs)
         /\ pageFailure env i c
         /\ msg = fatalMessage i c).
Proof.
  split.
  - intros (t & Hrun).
    destruct pipeHouses_run
      as [(pages' & t' & _ & Hrun' & _)
         | (m & c & pages' & t' & Hm & Hf & HF & Hrun' & _)];
      rewrite Hrun' in Hrun; [discriminate|].
    inversion Hrun; subst.
    exists (1 + Z.of_nat m), c. split; [lia|]. split; [|split;[assumption|reflexivity]].
    intros j Hj. apply (Forall2_pagesFrom _ _ _ _ HF). lia.
  - intros (i & c & Hi & Hbefore & Hf & ->).
    destruct pipeHouses_run
      as [(pages' & t' & HF & _ & _)
         | (m & c' & pages' & t' & Hm & Hf' & HF & Hrun' & _)].
    + exfalso.
      destruct (Forall2_pagesFrom _ _ _ _ HF i) as (hs & Hd); [lia|].
      eapply pageFailure_not_decoded; eassumption.
    + assert (i = 1 + Z.of_nat m) as ->.
      { destruct (Z.lt_trichotomy i (1 + Z.of_nat m)) as [Hlt|[Heq|Hgt]];
          [|assumption|]; exfalso.
        - destruct (Forall2_pagesFrom _ _ _ _ HF i) as (hs & Hd); [lia|].
          exact (pageFailure_not_decoded _ _ _ Hf Hd).
        - destruct (Hbefore (1 + Z.of_nat m)) as (hs & Hd); [lia|].
          exact (pageFailure_not_decoded _ _ _ Hf' Hd). }
      rewrite (pageFailure_unique _ _ _ Hf Hf').
      exists t'. assumption.
Qed.

(** The producer neither panics nor runs out of the model's loop bound. *)
Lemma pipeHouses_ends :
  (exists t, pipeHouses env [] = (Ok tt, t))
  \/ (exists msg t, pipeHouses env [] = (Fatal msg, t)).
Proof.
  destruct pipeHouses_run
    as [(pages' & t' & _ & Hrun' & _)
       | (m & c' & pages' & t' & _ & _ & _ & Hrun' & _)].
  - left. exists t'. assumption.
  - right. eauto.
Qed.

(** The producer's script: the sends and the close of a run that returns,
    or the sends and the fatal exit of a run that ends the process. *)
Lemma producerScript_cases :
  (exists hs t,
      pipeHouses env [] = (Ok tt, t)
      /\ producerScript env = map OpSend hs ++ [OpClose])
  \/ (exists hs msg t,
      pipeHouses env [] = (Fatal msg, t)
      /\ producerScript env = map OpSend hs ++ [OpFatal msg]).
Proof.
  unfold producerScript.
  destruct pipeHouses_run
    as [(pages' & t' & _ & Hrun' & Hops)
       | (m & c' & pages' & t' & _ & _ & _ & Hrun' & Hops)];
    rewrite Hrun', Hops; [left|right]; exists (concat pages'); eauto.
Qed.

(** The download body logs and returns; it never ends the process. *)
Lemma downloadBody_ends (h : house) (t : Trace) :
  exists f t', downloadBody env h t = (Ok f, t').
Proof.
  unfold downloadBody, bind, clientGet, emit, ret.
  destruct (serverGet env (PhotoURL h) (getsOf (PhotoURL h) t)) as [r|e|r e];
    simpl; eauto.
  destruct (osCreate env (fileName h)); simpl; eauto.
  destruct (ioCopy env (fileName h) (Body r)); simpl; eauto.
Qed.

Lemma downloadHouseImages_ends (inp : list house) : forall t : Trace,
  exists x t', downloadHouseImages env inp t = (Ok x, t').
Proof.
  induction inp as [|h rest IH]; intros t; simpl.
  - unfold bind, emit, ret. eauto.
  - unfold bind. destruct (downloadBody_ends h t) as ([|] & t' & ->).
    + apply IH.
    + unfold ret. eauto.
Qed.

End PipeFacts.

(** ** The channel: every send is one worker's receive *)

Section PoolFacts.

Lemma setWorker_length (k : nat) (w : Worker) (ws : list Worker) :
  length (setWorker k w ws) = length ws.
Proof.
  revert k. induction ws as [|w0 ws IH]; intros [|k]; simpl; auto.
Qed.

Lemma setWorker_nth_same (ws : list Worker) : forall (k : nat) (w0 w : Worker),
  nth_error ws k = Some w0 ->
  nth_error (setWorker k w ws) k = Some w.
Proof.
  induction ws as [|a ws IH]; intros [|k] w0 w H; simpl in *;
    try discriminate; [reflexivity|eauto].
Qed.

Lemma setWorker_nth_other (ws : list Worker) : forall (k j : nat) (w : Worker),
  j <> k ->
  nth_error (setWorker k w ws) j = nth_error ws j.
Proof.
  induction ws as [|a ws IH]; intros [|k] [|j] w H; simpl in *;
    try reflexivity; [contradiction|auto].
Qed.

Lemma setWorker_In (ws : list Worker) : forall (k : nat) (w x : Worker),
  In x (setWorker k w ws) -> x = w \/ In x ws.
Proof.
  induction ws as [|a ws IH]; intros [|k] w x H; simpl in *; try tauto.
  - destruct H as [<-|H]; auto.
  - destruct H as [<-|H]; auto. destruct (IH _ _ _ H); auto.
Qed.

(** Appending a record to one worker's list appends it to the whole, up to
    order. *)
Lemma deliveries_snoc (ws : list Worker) :
  forall (k : nat) (w0 w : Worker) (item : nat * house),
    nth_error ws k = Some w0 ->
    got w = got w0 ++ [item] ->
    Permutation (concat (map got (setWorker k w ws)))
                (concat (map got ws) ++ [item]).
Proof.
  induction ws as [|a ws IH]; intros [|k] w0 w item H Hg; simpl in *;
    try discriminate.
  - inversion H; subst. rewrite Hg, <- !app_assoc.
    apply Permutation_app_head. apply Permutation_app_comm.
  - rewrite <- app_assoc. apply Permutation_app_head. eauto.
Qed.

Lemma deliveries_same (ws : list Worker) :
  forall (k : nat) (w0 w : Worker),
    nth_error ws k = Some w0 ->
    got w = got w0 ->
    concat (map got (setWorker k w ws)) = concat (map got ws).
Proof.
  induction ws as [|a ws IH]; intros [|k] w0 w H Hg; simpl in *;
    try discriminate.
  - inversion H; subst. rewrite Hg. reflexivity.
  - f_equal. eauto.
Qed.

End PoolFacts.

Section Delivery.

Variable env : Env.
Variable script : list ChanOp.

Lemma sendsOf_app (a b : list ChanOp) : sendsOf (a ++ b) = sendsOf a ++ sendsOf b.
Proof. apply flat_map_app. Qed.

Lemma deliveryInv_init : deliveryInv script (initSys script).
Proof.
  split; [constructor|]. split; [reflexivity|].
  exists []. split; reflexivity.
Qed.

(** The state after worker [k] took [h] off the channel. *)
Lemma deliveryInv_receive (s : Sys) (k : nat) (rcvd : list (nat * house))
      (h : house) (rest : list ChanOp) (st : WorkerSt) (m : MainSt)
      (t : Trace) (x : option Z) (c : bool) (g : Z) :
  deliveryInv script s ->
  nth_error (pool s) k = Some (mkWorker WLooping rcvd) ->
  producer s = OpSend h :: rest ->
  deliveryInv script
    (mkSys m rest (emitted s ++ [(length (emitted s), h)]) c
       (setWorker k (mkWorker st (rcvd ++ [(length (emitted s), h)])) (pool s))
       g t x).
Proof.
  intros (Hperm & Hnum & past & Hscript & Hsends) Hk Hp.
  split; [|split].
  - unfold deliveries. simpl.
    rewrite (deliveries_snoc (pool s) k _
               (mkWorker st (rcvd ++ [(length (emitted s), h)])) _ Hk eq_refl).
    apply Permutation_app_tail. exact Hperm.
  - simpl. rewrite map_app, last_length, seq_S, Hnum. reflexivity.
  - exists (past ++ [OpSend h]). simpl. split.
    + rewrite <- app_assoc. simpl. rewrite <- Hp. exact Hscript.
    + rewrite sendsOf_app, map_app, Hsends. reflexivity.
Qed.

Lemma step_deliveryInv (c : Choice) (s s' : Sys) :
  deliveryInv script s -> step env c s = Some s' -> deliveryInv script s'.
Proof.
  intros Hinv Hstep. unfold step in Hstep.
  destruct (exited s); [discriminate|].
  destruct c as [| |k].
  - (* main *)
    unfold stepMain in Hstep.
    destruct Hinv as (Hperm & Hnum & Hpast).
    destruct (mainSt s) as [i| |]; [| |discriminate].
    + destruct (i <? maxGoroutines); try discriminate Hstep; injection Hstep as <-;
        (split; [|split; [exact Hnum|exact Hpast]]);
        unfold deliveries; simpl; [|exact Hperm].
      rewrite map_app, concat_app. simpl. rewrite app_nil_r. exact Hperm.
    + destruct (wg s =? 0); try discriminate Hstep; injection Hstep as <-.
      split; [exact Hperm|split; [exact Hnum|exact Hpast]].
  - (* producer *)
    unfold stepProducer in Hstep.
    destruct Hinv as (Hperm & Hnum & past & Hscript & Hsends).
    destruct (producer s) as [|[h| |msg] rest] eqn:Hp; [discriminate| | |].
    + destruct (closed s); try discriminate Hstep; injection Hstep as <-.
      split; [exact Hperm|split; [exact Hnum|]].
      exists past. simpl. auto.
    + destruct (closed s); try discriminate Hstep; injection Hstep as <-;
        (split; [exact Hperm|split; [exact Hnum|]]); simpl.
      * exists past. auto.
      * exists (past ++ [OpClose]). rewrite <- app_assoc. simpl. split; [exact Hscript|].
        rewrite sendsOf_app. simpl. rewrite app_nil_r. exact Hsends.
    + try discriminate Hstep; injection Hstep as <-.
      split; [exact Hperm|split; [exact Hnum|]].
      exists past. simpl. auto.
  - (* worker k *)
    unfold stepWorker in Hstep.
    destruct (nth_error (pool s) k) as [[[| |] rcvd]|] eqn:Hk;
      try discriminate.
    destruct (closed s).
    + try discriminate Hstep; injection Hstep as <-.
      destruct Hinv as (Hperm & Hnum & Hpast).
      split; [|split; [exact Hnum|exact Hpast]].
      unfold deliveries. simpl.
      rewrite (deliveries_same (pool s) k _ (mkWorker WReleased rcvd) Hk eq_refl).
      exact Hperm.
    + destruct (producer s) as [|[h| |msg] rest] eqn:Hp; try discriminate.
      destruct (downloadBody env h (world s)) as [[[|]| | |] t'];
        try discriminate Hstep; injection Hstep as <-;
        eapply deliveryInv_receive; eassumption.
Qed.

Lemma run_deliveryInv (sched : list Choice) : forall s : Sys,
  deliveryInv script s -> deliveryInv script (run env sched s).
Proof.
  induction sched as [|c sched IH]; intros s Hinv; simpl; [assumption|].
  destruct (step env c s) as [s'|] eqn:Hstep; [|auto].
  apply IH. eapply step_deliveryInv; eassumption.
Qed.

Lemma NoDup_app_disjoint {A : Type} (l1 l2 : list A) (x : A) :
  NoDup (l1 ++ l2) -> In x l1 -> In x l2 -> False.
Proof.
  induction l1 as [|a l1 IH]; simpl; intros Hnd H1 H2; [contradiction|].
  inversion Hnd as [|? ? Hnotin Hrest]; subst.
  destruct H1 as [->|H1]; [|auto].
  apply Hnotin. apply in_or_app. right. assumption.
Qed.

(** In a list of lists without repetition, an element sits in one list. *)
Lemma NoDup_concat_one {A : Type} (ls : list (list A)) :
  forall (i j : nat) (a b : list A) (x : A),
    NoDup (concat ls) ->
    nth_error ls i = Some a -> nth_error ls j = Some b ->
    In x a -> In x b -> i = j.
Proof.
  induction ls as [|l ls IH]; intros [|i] [|j] a b x Hnd Hi Hj Ha Hb;
    simpl in *; try discriminate; [reflexivity| | |].
  - exfalso. inversion Hi; subst.
    apply (NoDup_app_disjoint _ _ x Hnd Ha).
    apply in_concat. exists b. split; [|assumption].
    eapply nth_error_In; eassumption.
  - exfalso. inversion Hj; subst.
    apply (NoDup_app_disjoint _ _ x Hnd Hb).
    apply in_concat. exists a. split; [|assumption].
    eapply nth_error_In; eassumption.
  - f_equal. apply NoDup_app_remove_l in Hnd. eauto.
Qed.

Lemma deliveryInv_NoDup (s : Sys) :
  deliveryInv script s -> NoDup (emitted s) /\ NoDup (deliveries s).
Proof.
  intros (Hperm & Hnum & _).
  assert (Hnd : NoDup (emitted s)).
  { apply (NoDup_map_inv fst). rewrite Hnum. apply seq_NoDup. }
  split; [assumption|].
  eapply Permutation_NoDup; [apply Permutation_sym; exact Hperm|assumption].
Qed.

Lemma deliveryInv_exactly_one (s : Sys) (item : nat * house) :
  deliveryInv script s ->
  In item (emitted s) ->
  exists k, receivedBy s k item
            /\ forall k', receivedBy s k' item -> k' = k.
Proof.
  intros Hinv Hin.
  destruct (deliveryInv_NoDup s Hinv) as (_ & Hnd).
  destruct Hinv as (Hperm & _).
  assert (Hd : In item (deliveries s)).
  { eapply Permutation_in; [apply Permutation_sym; exact Hperm|assumption]. }
  unfold deliveries in Hd. apply in_concat in Hd.
  destruct Hd as (l & Hl & Hitem).
  apply in_map_iff in Hl. destruct Hl as (w & <- & Hw).
  apply In_nth_error in Hw. destruct Hw as (k & Hk).
  exists k. split; [exists w; auto|].
  intros k' (w' & Hk' & Hitem').
  apply (NoDup_concat_one (map got (pool s)) k' k (got w') (got w) item);
    try assumption.
  - rewrite nth_error_map, Hk'. reflexivity.
  - rewrite nth_error_map, Hk. reflexivity.
Qed.

End Delivery.

(** ** The wait group *)

Section WaitGroup.

Variable env : Env.
Variable hs : list house.
Variable fin : ChanOp.
Hypothesis fin_end : fin = OpClose \/ exists msg, fin = OpFatal msg.

Lemma unreleased_spawn (ws : list Worker) :
  unreleased (ws ++ [mkWorker WLooping []]) = S (unreleased ws).
Proof.
  unfold unreleased. rewrite filter_app, length_app. simpl. lia.
Qed.

Lemma unreleased_release (ws : list Worker) : forall (k : nat) (w0 w : Worker),
  nth_error ws k = Some w0 ->
  notReleased w0 = true -> notReleased w = false ->
  S (unreleased (setWorker k w ws)) = unreleased ws.
Proof.
  unfold unreleased.
  induction ws as [|a ws IH]; intros [|k] w0 w Hk H0 H1; simpl in *;
    try discriminate.
  - inversion Hk; subst. rewrite H0, H1. reflexivity.
  - destruct (notReleased a); simpl; [f_equal|]; eauto.
Qed.

Lemma unreleased_keep (ws : list Worker) : forall (k : nat) (w0 w : Worker),
  nth_error ws k = Some w0 ->
  notReleased w = notReleased w0 ->
  unreleased (setWorker k w ws) = unreleased ws.
Proof.
  unfold unreleased.
  induction ws as [|a ws IH]; intros [|k] w0 w Hk H0; simpl in *;
    try discriminate.
  - inversion Hk; subst. rewrite H0.
    destruct (notReleased w0); reflexivity.
  - destruct (notReleased a); simpl; [f_equal|]; eauto.
Qed.

Lemma unreleased_none (ws : list Worker) :
  unreleased ws = O -> forall w, In w ws -> wstate w = WReleased.
Proof.
  unfold unreleased.
  induction ws as [|a ws IH]; simpl; intros H w Hin; [contradiction|].
  destruct (notReleased a) eqn:Ha; [discriminate|].
  destruct Hin as [<-|Hin]; [|auto].
  unfold notReleased in Ha. destruct (wstate a); try discriminate; reflexivity.
Qed.

(** A download that always fails takes the [return]. *)
Lemma alwaysFails_returns (h : house) (t : Trace) :
  alwaysFails env h -> exists t', downloadBody env h t = (Ok Return, t').
Proof.
  intros Hf. unfold downloadBody, bind, clientGet, emit, ret.
  destruct (Hf (getsOf (PhotoURL h) t)) as (e & He).
  destruct (serverGet env (PhotoURL h) (getsOf (PhotoURL h) t)) as [r|e'|r e'];
    simpl in *; [discriminate| |]; eauto.
Qed.

Lemma poolInv_init : poolInv env hs fin (initSys (map OpSend hs ++ [fin])).
Proof.
  unfold poolInv, initSys; simpl.
  split; [left; split; [reflexivity|exists hs; auto]|].
  split; [reflexivity|].
  split; [unfold maxGoroutines; repeat split; try lia; discriminate|].
  split; [discriminate|].
  split; intros; contradiction.
Qed.

Lemma map_send_cons (rest : list house) (h : house) (ops : list ChanOp) :
  map OpSend rest ++ [fin] = OpSend h :: ops ->
  exists rest', rest = h :: rest' /\ ops = map OpSend rest' ++ [fin].
Proof.
  destruct rest as [|h' rest']; simpl; intros H.
  - inversion H as [Hfin]. destruct fin_end as [E|(m & E)];
      rewrite E in Hfin; discriminate.
  - inversion H; subst. eauto.
Qed.

Lemma map_send_close (rest : list house) (ops : list ChanOp) :
  map OpSend rest ++ [fin] = OpClose :: ops ->
  rest = [] /\ ops = [] /\ fin = OpClose.
Proof.
  destruct rest as [|h' rest']; simpl; intros H; inversion H; auto.
Qed.

Lemma map_send_fatal (rest : list house) (ops : list ChanOp) (msg : string) :
  map OpSend rest ++ [fin] = OpFatal msg :: ops ->
  fin = OpFatal msg.
Proof.
  destruct rest as [|h' rest']; simpl; intros H; inversion H; auto.
Qed.

(** The state after worker [k] took [h] off the channel and ran the
    download body on it. *)
Lemma poolInv_receive (s : Sys) (k : nat) (rcvd : list (nat * house))
      (h : house) (ops : list ChanOp) (f : Flow) (t' : Trace) :
  poolInv env hs fin s ->
  exited s = None ->
  closed s = false ->
  nth_error (pool s) k = Some (mkWorker WLooping rcvd) ->
  producer s = OpSend h :: ops ->
  downloadBody env h (world s) = (Ok f, t') ->
  poolInv env hs fin
    (mkSys (mainSt s) ops (emitted s ++ [(length (emitted s), h)]) (closed s)
       (setWorker k
          (mkWorker match f with FallThrough => WLooping | Return => WQuit end
                    (rcvd ++ [(length (emitted s), h)]))
          (pool s))
       (wg s) t' (exited s)).
Proof.
  intros (Hchan & Hwg & Hmain & Hexit & Hrel & Hquit) Hex Hcl Hk Hp Hbody.
  unfold poolInv; simpl.
  split; [|split; [|split; [|split; [|split]]]].
  - left. split; [assumption|].
    destruct Hchan as [(_ & rest & Hprod & Hhs) | (Hc & _)]; [|congruence].
    rewrite Hp in Hprod. symmetry in Hprod.
    destruct (map_send_cons _ _ _ Hprod) as (rest' & -> & ->).
    exists rest'. split; [reflexivity|].
    rewrite map_app, <- app_assoc. exact Hhs.
  - rewrite Hwg. f_equal. symmetry.
    eapply unreleased_keep; [eassumption|]. destruct f; reflexivity.
  - rewrite setWorker_length. exact Hmain.
  - exact Hexit.
  - intros w Hin Hw. apply setWorker_In in Hin.
    destruct Hin as [->|Hin]; [destruct f; discriminate|eauto].
  - intros w n h' Hin Hgot Hfail. apply setWorker_In in Hin.
    destruct Hin as [->|Hin]; [|eauto].
    simpl in *. apply in_app_or in Hgot. destruct Hgot as [Hgot|[Heq|[]]].
    + exfalso.
      assert (Hq : wstate (mkWorker WLooping rcvd) = WQuit).
      { eapply Hquit; [eapply nth_error_In; eassumption|exact Hgot|exact Hfail]. }
      discriminate.
    + inversion Heq; subst h'.
      destruct (alwaysFails_returns h (world s) Hfail) as (t'' & Hret).
      rewrite Hret in Hbody. inversion Hbody; subst. reflexivity.
Qed.

Lemma step_poolInv (c : Choice) (s s' : Sys) :
  poolInv env hs fin s -> step env c s = Some s' -> poolInv env hs fin s'.
Proof.
  intros Hinv Hstep. unfold step in Hstep.
  destruct (exited s) eqn:Hex; [discriminate|].
  destruct c as [| |k].
  - (* main *)
    destruct Hinv as (Hchan & Hwg & Hmain & Hexit & Hrel & Hquit).
    unfold stepMain in Hstep.
    destruct (mainSt s) as [i| |]; [| |discriminate].
    + destruct (Z.ltb_spec i maxGoroutines);
        injection Hstep as <-; unfold poolInv; simpl;
        rewrite ?Hex; repeat split; try assumption; try discriminate;
        try tauto; try lia.
      * rewrite unreleased_spawn. lia.
      * rewrite length_app. simpl. lia.
      * intros w Hin Hw. apply in_app_or in Hin.
        destruct Hin as [Hin|[<-|[]]]; [eauto|discriminate].
      * intros w n h Hin Hgot Hf. apply in_app_or in Hin.
        destruct Hin as [Hin|[<-|[]]]; [eauto|contradiction].
    + destruct (Z.eqb_spec (wg s) 0); [|discriminate].
      injection Hstep as <-. unfold poolInv; simpl.
      repeat split; try assumption; try tauto.
      intros c Hc. left. congruence.
  - (* producer *)
    destruct Hinv as (Hchan & Hwg & Hmain & Hexit & Hrel & Hquit).
    unfold stepProducer in Hstep.
    destruct (producer s) as [|[h| |msg] rest] eqn:Hp; [discriminate| | |].
    + destruct (closed s) eqn:Hc; [|discriminate].
      destruct Hchan as [(Hc' & _) | (_ & _ & Hnil & _)]; congruence.
    + destruct (closed s) eqn:Hc.
      * destruct Hchan as [(Hc' & _) | (_ & _ & Hnil & _)]; congruence.
      * injection Hstep as <-. unfold poolInv; simpl.
        destruct Hchan as [(_ & rest' & Hprod & Hhs) | (Hc' & _)];
          [|congruence].
        symmetry in Hprod.
        destruct (map_send_close _ _ Hprod) as (-> & -> & Hfin).
        rewrite app_nil_r in Hhs.
        split; [right; repeat split; assumption|].
        split; [assumption|].
        split; [exact Hmain|].
        split; [exact Hexit|].
        split; [intros; reflexivity|exact Hquit].
    + injection Hstep as <-. unfold poolInv; simpl.
      destruct Hchan as [(Hc & rest' & Hprod & Hhs) | (_ & _ & Hnil & _)];
        [|congruence].
      symmetry in Hprod. pose proof (map_send_fatal _ _ _ Hprod) as Hfin.
      split; [left; split; [assumption|exists rest'; split; [congruence|assumption]]|].
      split; [assumption|].
      split; [destruct (mainSt s); repeat split; try tauto; try discriminate|].
      split; [intros c Hc'; inversion Hc'; subst; right; eauto|].
      split; assumption.
  - (* worker k *)
    unfold stepWorker in Hstep.
    destruct (nth_error (pool s) k) as [[[| |] rcvd]|] eqn:Hk;
      try discriminate.
    destruct (closed s) eqn:Hc.
    + injection Hstep as <-.
      destruct Hinv as (Hchan & Hwg & Hmain & Hexit & Hrel & Hquit).
      unfold poolInv; simpl.
      split; [|split; [|split; [|split; [|split]]]].
      * destruct Hchan as [(Hc' & _) | Hright]; [congruence|].
        right. rewrite Hc in Hright. exact Hright.
      * rewrite Hwg.
        rewrite <- (unreleased_release (pool s) k _ (mkWorker WReleased rcvd) Hk);
          [lia|reflexivity|reflexivity].
      * rewrite setWorker_length.
        destruct (mainSt s); [exact Hmain|exact Hmain|].
        destruct Hmain as (Hz & Hlen). exfalso.
        rewrite Hz in Hwg.
        assert (Hu : unreleased (pool s) = O) by lia.
        pose proof (unreleased_none _ Hu _ (nth_error_In _ _ Hk)) as Hw.
        discriminate.
      * exact Hexit.
      * intros; reflexivity.
      * intros w n h Hin Hgot Hfail. apply setWorker_In in Hin.
        destruct Hin as [->|Hin]; [|eauto].
        exfalso.
        assert (Hq : wstate (mkWorker WLooping rcvd) = WQuit).
        { eapply Hquit; [eapply nth_error_In; eassumption|exact Hgot|exact Hfail]. }
        discriminate.
    + destruct (producer s) as [|[h| |msg] rest] eqn:Hp; try discriminate.
      destruct (downloadBody_ends env h (world s)) as (f & t' & Hbody).
      pose proof (poolInv_receive s k rcvd h rest f t' Hinv Hex Hc Hk Hp Hbody)
        as Hnext.
      rewrite Hbody in Hstep. rewrite Hc in Hnext.
      destruct f; injection Hstep as <-; exact Hnext.
Qed.

Lemma run_poolInv (sched : list Choice) : forall s : Sys,
  poolInv env hs fin s -> poolInv env hs fin (run env sched s).
Proof.
  induction sched as [|c sched IH]; intros s Hinv; simpl; [assumption|].
  destruct (step env c s) as [s'|] eqn:Hstep; [|auto].
  apply IH. eapply step_poolInv; eassumption.
Qed.

(** After a download that always fails, [wg.Wait()] does not return. *)
Lemma failed_download_blocks_wait (s : Sys) (h : house) :
  poolInv env hs fin s ->
  deliveryInv (map OpSend hs ++ [fin]) s ->
  In h hs -> alwaysFails env h ->
  mainSt s <> MReturned.
Proof.
  intros (Hchan & Hwg & Hmain & Hexit & Hrel & Hquit) (Hperm & _) Hin Hfail Hret.
  rewrite Hret in Hmain. destruct Hmain as (Hz & Hlen).
  assert (Hu : unreleased (pool s) = O) by lia.
  pose proof (unreleased_none _ Hu) as Hall.
  destruct (pool s) as [|w0 ws] eqn:Hpool;
    [simpl in Hlen; unfold maxGoroutines in Hlen; lia|].
  assert (Hclosed : closed s = true).
  { apply (Hrel w0); [left; reflexivity|apply Hall; left; reflexivity]. }
  destruct Hchan as [(Hc & _) | (_ & _ & _ & Hhs)]; [congruence|].
  rewrite Hhs in Hin. apply in_map_iff in Hin.
  destruct Hin as ([n h'] & Heq & Hem). simpl in Heq. subst h'.
  assert (Hd : In (n, h) (deliveries s)).
  { eapply Permutation_in; [apply Permutation_sym; exact Hperm|assumption]. }
  unfold deliveries in Hd. rewrite Hpool in Hd.
  apply in_concat in Hd. destruct Hd as (l & Hl & Hitem).
  apply in_map_iff in Hl. destruct Hl as (w & <- & Hw).
  pose proof (Hquit w n h Hw Hitem Hfail) as Hq.
  pose proof (Hall w Hw) as Hr. congruence.
Qed.

End WaitGroup.

(** ** The program as a whole *)

Section ProgramFacts.

Variable env : Env.

Lemma program_deliveryInv (sched : list Choice) :
  deliveryInv (producerScript env) (program env sched).
Proof. apply run_deliveryInv. apply deliveryInv_init. Qed.

Lemma program_poolInv (sched : list Choice) (hs : list house) (fin : ChanOp) :
  (fin = OpClose \/ exists msg, fin = OpFatal msg) ->
  producerScript env = map OpSend hs ++ [fin] ->
  poolInv env hs fin (program env sched).
Proof.
  intros Hfin Hscript. unfold program. rewrite Hscript.
  apply run_poolInv; [assumption|]. apply poolInv_init.
Qed.

(** The process ends with code 0, when main returns, or with code 1, when
    the producer called [log.Fatalf]; no goroutine panics. *)
Lemma program_exit_codes (sched : list Choice) (c : Z) :
  exited (program env sched) = Some c ->
  c = 0 \/ (c = 1 /\ exists msg t, pipeHouses env [] = (Fatal msg, t)).
Proof.
  intros Hc.
  destruct (producerScript_cases env)
    as [(hs & t & Hrun & Hscript) | (hs & msg & t & Hrun & Hscript)].
  - destruct (program_poolInv sched hs OpClose (or_introl eq_refl) Hscript)
      as (_ & _ & _ & Hexit & _).
    destruct (Hexit c Hc) as [->|(_ & m & Hm)]; [left; reflexivity|discriminate].
  - destruct (program_poolInv sched hs (OpFatal msg)
                (or_intror (ex_intro _ msg eq_refl)) Hscript)
      as (_ & _ & _ & Hexit & _).
    destruct (Hexit c Hc) as [->|(-> & _)]; [left; reflexivity|].
    right. split; [reflexivity|]. eauto.
Qed.

(** When the producer's run returns, a record whose download always fails
    keeps [wg.Wait()] from returning, whatever the schedule. *)
Lemma program_never_returns (sched : list Choice) (hs : list house) (h : house) :
  producerScript env = map OpSend hs ++ [OpClose] ->
  In h hs -> alwaysFails env h ->
  mainSt (program env sched) <> MReturned.
Proof.
  intros Hscript Hin Hfail.
  apply (failed_download_blocks_wait env hs OpClose (program env sched) h).
  - apply program_poolInv; [left; reflexivity|assumption].
  - rewrite <- Hscript. apply program_deliveryInv.
  - assumption.
  - assumption.
Qed.

(** A [return] in the loop body ends the worker's function there: what is
    still to come on the channel is left, and [wg.Done()] is not reached. *)
Lemma downloadHouseImages_quits (h : house) (rest : list house) (t t' : Trace) :
  downloadBody env h t = (Ok Return, t') ->
  downloadHouseImages env (h :: rest) t = (Ok (Quit rest), t').
Proof.
  intros Hbody. simpl. unfold bind. rewrite Hbody. reflexivity.
Qed.

End ProgramFacts.

(** [filepath.Ext] returns nothing or a suffix that starts with a dot. *)
Lemma extScan_dot (before : list ascii) : forall after : string,
  GoLib.extScan before after = EmptyString
  \/ exists e, GoLib.extScan before after = String "."%char e.
Proof.
  induction before as [|c more IH]; intros after; simpl; [left; reflexivity|].
  destruct (GoLib.isPathSeparator c); [left; reflexivity|].
  destruct (Ascii.eqb_spec c "."%char) as [->|_]; [right; eauto|apply IH].
Qed.

(** Whenever the photo URL has an extension, the file name has two dots in
    a row before it. *)
Lemma fileName_with_extension (h : house) (e : string) :
  GoLib.Ext (PhotoURL h) = String "."%char e ->
  fileName h
  = ("id-" ++ GoLib.itoa (ID h) ++ "-" ++ GoLib.TrimRight (Address h) "."
       ++ ".." ++ e)%string
  /\ fileNamePattern h
     = ("id-" ++ GoLib.itoa (ID h) ++ "-" ++ GoLib.TrimRight (Address h) "."
          ++ "." ++ e)%string.
Proof.
  intros He. unfold fileName, fileNamePattern, extensionOf.
  rewrite He. split; reflexivity.
Qed.

(** The file name depends on the id, the address and the photo URL only. *)
Lemma fileName_depends_on (h h' : house) :
  ID h = ID h' -> Address h = Address h' -> PhotoURL h = PhotoURL h' ->
  fileName h = fileName h'.
Proof.
  intros Hid Haddr Hurl. unfold fileName. rewrite Hid, Haddr, Hurl. reflexivity.
Qed.

(** A healthy run: with the sample schedule main returns and the process
    ends with code 0, both photos on disk. *)
Example healthy_run_returns :
  let s := program Sample.healthy Sample.schedule in
  mainSt s = MReturned /\ exited s = Some 0 /\ wg s = 0
  /\ In (ECopy (fileName Sample.houseA) "JPEG") (world s)
  /\ In (ECopy (fileName Sample.houseB) "JPEG") (world s).
Proof.
  vm_compute. repeat split; auto 10.
Qed.

(** The same schedule when house a's photo cannot be fetched: worker 0 has
    quit, the wait group stays at 1, main sits in [wg.Wait()], and no
    goroutine can move. *)
Example failed_download_run_is_stuck :
  let s := program Sample.photoDown Sample.schedule in
  mainSt s = MWaiting /\ exited s = None /\ wg s = 1
  /\ map wstate (firstn 2 (pool s)) = [WQuit; WReleased]
  /\ step Sample.photoDown CMain s = None
  /\ step Sample.photoDown CProducer s = None
  /\ forall k, step Sample.photoDown (CWorker k) s = None.
Proof.
  repeat split; try (vm_compute; reflexivity).
  intros k.
  do 20 (destruct k as [|k]; [vm_compute; reflexivity|]).
  vm_compute. destruct k; reflexivity.
Qed.

(** C1, on the code: a worker that receives house a and would then receive
    house b logs the failure of house a, whichever of the three steps fails,
    and returns from its function: house b is never fetched by it and
    wg.Done is never called. (The claim has the worker go back to the
    receive.) *)
Theorem worker_returns_on_failed_download :
  downloadHouseImages Sample.photoDown [Sample.houseA; Sample.houseB] []
  = (Ok (Quit [Sample.houseB]),
     [EGet (PhotoURL Sample.houseA);
      ELog (String newline (fileName Sample.houseA))
        "error getting photo: context deadline exceeded"])
  /\ downloadHouseImages Sample.diskFull [Sample.houseA; Sample.houseB] []
  = (Ok (Quit [Sample.houseB]),
     [EGet (PhotoURL Sample.houseA);
      ELog (String newline (fileName Sample.houseA))
        "could not create file: no space left on device"])
  /\ downloadHouseImages Sample.copyBroken [Sample.houseA; Sample.houseB] []
  = (Ok (Quit [Sample.houseB]),
     [EGet (PhotoURL Sample.houseA);
      ECreate (fileName Sample.houseA);
      ELog (String newline (fileName Sample.houseA))
        "error copying file contents: unexpected EOF"]).
Proof.
  repeat split; vm_compute; reflexivity.
Qed.

(** C2, on the code: when the photo of one house cannot be fetched, the
    worker that received it has left without wg.Done, and under no schedule
    does main get past wg.Wait. (The claim has the wait terminate.) *)
Theorem wait_never_returns_after_failed_download :
  forall sched : list Choice,
    mainSt (program Sample.photoDown sched) <> MReturned
    /\ exited (program Sample.photoDown sched) <> Some 0.
Proof.
  intros sched.
  assert (Hmain : mainSt (program Sample.photoDown sched) <> MReturned).
  { apply (program_never_returns Sample.photoDown sched
             [Sample.houseA; Sample.houseB] Sample.houseA).
    - vm_compute. reflexivity.
    - left. reflexivity.
    - intros n. exists Sample.timeout. reflexivity. }
  split; [assumption|].
  intros Hex.
  destruct (program_poolInv Sample.photoDown sched
              [Sample.houseA; Sample.houseB] OpClose)
    as (_ & _ & Hm & _); [left; reflexivity|vm_compute; reflexivity|].
  destruct (mainSt (program Sample.photoDown sched)); try tauto.
Qed.

(** X1: when no page ends the process, the sends of the producer's own run
    are the houses of pages 1 to 10, page after page and in each page's
    order, followed by the one close of the channel; and in the running
    program the records sent so far are always a front part of that
    sequence, the channel being closed only once all of it has been sent. *)
Theorem pipeHouses_sends_pages_in_order :
  forall env : Env,
    (forall msg t, pipeHouses env [] <> (Fatal msg, t)) ->
    exists (pages : list (list house)) (t : Trace),
      Forall2 (pageDecodesTo env) pagesRange pages
      /\ pipeHouses env [] = (Ok tt, t)
      /\ chanOps t = map OpSend (concat pages) ++ [OpClose]
      /\ forall sched : list Choice,
          exists rest,
            concat pages = map snd (emitted (program env sched)) ++ rest
            /\ (closed (program env sched) = true -> rest = []).
Proof.
  intros env Hnofatal.
  destruct (pipeHouses_run env)
    as [(pages & t & HF & Hrun & Hops)
       | (m & c & pages & t & _ & _ & _ & Hrun & _)];
    [|exfalso; exact (Hnofatal _ _ Hrun)].
  exists pages, t. repeat split; try assumption.
  intros sched.
  assert (Hscript : producerScript env = map OpSend (concat pages) ++ [OpClose]).
  { unfold producerScript. rewrite Hrun. exact Hops. }
  destruct (program_poolInv env sched (concat pages) OpClose
              (or_introl eq_refl) Hscript)
    as ([(Hopen & rest & _ & Hhs) | (_ & _ & _ & Hhs)] & _).
  - exists rest. split; [assumption|]. intros Hc. congruence.
  - exists []. split; [rewrite app_nil_r; assumption|reflexivity].
Qed.

Lemma pipeHouses_sends_pages_in_order_witness :
  exists (pages : list (list house)) (t : Trace),
    Forall2 (pageDecodesTo Sample.healthy) pagesRange pages
    /\ pipeHouses Sample.healthy [] = (Ok tt, t)
    /\ chanOps t = map OpSend (concat pages) ++ [OpClose]
    /\ forall sched : list Choice,
        exists rest,
          concat pages
          = map snd (emitted (program Sample.healthy sched)) ++ rest
          /\ (closed (program Sample.healthy sched) = true -> rest = []).
Proof.
  apply (pipeHouses_sends_pages_in_order Sample.healthy).
  intros msg t H. vm_compute in H. discriminate H.
Defined.

(** C7, on the code: for a house with address [12 Main St.] and a photo URL
    ending in [a.jpg] the worker's file name is [id-7-12 Main St..jpg], with
    two dots between address and extension, because filepath.Ext hands back
    the extension with its dot. (The claim has one dot.) *)
Theorem fileName_has_two_dots :
  fileName Sample.house7 = "id-7-12 Main St..jpg"%string
  /\ fileNamePattern Sample.house7 = "id-7-12 Main St.jpg"%string
  /\ fileName Sample.house7 <> fileNamePattern Sample.house7.
Proof.
  split; [reflexivity|]. split; [reflexivity|].
  vm_compute. discriminate.
Qed.

(** C8: the process is ended by an error in exactly three cases, all on
    the producer's path: a page whose endpoint used up the 20 tries, a page
    whose GET came back with an error, a page whose body did not decode. The
    producer ends in no other way than by returning or by one of these; the
    download of a photo never ends the process, it returns; and the whole
    program exits with code 0 or, after one of the three, with code 1. *)
Theorem fatal_conditions_are_exactly_three :
  forall env : Env,
    (forall msg : string,
        (exists t, pipeHouses env [] = (Fatal msg, t))
        <-> (exists i c,
               1 <= i <= 10
               /\ (forall j, 1 <= j < i -> exists hs, pageDecodesTo env j hs)
               /\ pageFailure env i c
               /\ msg = fatalMessage i c))
    /\ ((exists t, pipeHouses env [] = (Ok tt, t))
        \/ (exists msg t, pipeHouses env [] = (Fatal msg, t)))
    /\ (forall (h : house) (t : Trace),
          exists f t', downloadBody env h t = (Ok f, t'))
    /\ (forall (inp : list house) (t : Trace),
          exists x t', downloadHouseImages env inp t = (Ok x, t'))
    /\ (forall (sched : list Choice) (c : Z),
          exited (program env sched) = Some c ->
          c = 0 \/ (c = 1 /\ exists msg t, pipeHouses env [] = (Fatal msg, t))).
Proof.
  intros env.
  split; [apply pipeHouses_fatal_iff|].
  split; [apply pipeHouses_ends|].
  split; [apply downloadBody_ends|].
  split; [apply downloadHouseImages_ends|].
  apply program_exit_codes.
Qed.

Lemma fatal_conditions_are_exactly_three_witness :
  exists t,
    pipeHouses Sample.alwaysBusy []
    = (Fatal (fatalMessage 1 RetryBudgetExhausted), t).
Proof.
  destruct (fatal_conditions_are_exactly_three Sample.alwaysBusy)
    as (Hiff & _).
  apply (proj2 (Hiff (fatalMessage 1 RetryBudgetExhausted))).
  exists 1, RetryBudgetExhausted.
  split; [lia|]. split; [intros j Hj; lia|].
  split; [intros n Hn; reflexivity|reflexivity].
Defined.

(** C9: in every state the program reaches, each record the producer has
    sent was received by one worker and by no other, no worker holds a
    record twice, the workers hold nothing that was not sent, and the
    records sent are the producer's, in its order. *)
Theorem each_sent_record_reaches_exactly_one_worker :
  forall (env : Env) (sched : list Choice),
    let s := program env sched in
    (forall item, In item (emitted s) ->
        exists k, receivedBy s k item
                  /\ forall k', receivedBy s k' item -> k' = k)
    /\ NoDup (deliveries s)
    /\ (forall k item, receivedBy s k item -> In item (emitted s))
    /\ exists past, producerScript env = past ++ producer s
                    /\ sendsOf past = map snd (emitted s).
Proof.
  intros env sched s.
  pose proof (program_deliveryInv env sched) as Hinv. fold s in Hinv.
  split; [intros item Hin; eapply deliveryInv_exactly_one; eassumption|].
  split; [eapply deliveryInv_NoDup; eassumption|].
  split; [|apply Hinv].
  intros k item (w & Hk & Hin).
  destruct Hinv as (Hperm & _).
  eapply Permutation_in; [exact Hperm|].
  unfold deliveries. apply in_concat. exists (got w). split; [|assumption].
  apply in_map. eapply nth_error_In; eassumption.
Qed.

Lemma each_sent_record_reaches_exactly_one_worker_witness :
  exists k,
    receivedBy (program Sample.healthy Sample.schedule) k (1%nat, Sample.houseB)
    /\ forall k',
        receivedBy (program Sample.healthy Sample.schedule) k'
          (1%nat, Sample.houseB) -> k' = k.
Proof.
  destruct (each_sent_record_reaches_exactly_one_worker
              Sample.healthy Sample.schedule) as (Hone & _).
  apply Hone. vm_compute. right. left. reflexivity.
Defined.

(** ** More failing downloads than workers *)

Section AllFail.

Variable env : Env.
Variable hs : list house.
Variable fin : ChanOp.
Hypothesis fin_end : fin = OpClose \/ exists msg, fin = OpFatal msg.
Hypothesis all_fail : forall h, In h hs -> alwaysFails env h.

(** When every record's download fails, a worker holds nothing, or it holds
    one record and has quit. *)
Lemma step_one_record_each (c : Choice) (s s' : Sys) :
  poolInv env hs fin s ->
  (forall w, In w (pool s) ->
     got w = [] \/ (wstate w = WQuit /\ length (got w) = 1%nat)) ->
  step env c s = Some s' ->
  forall w, In w (pool s') ->
    got w = [] \/ (wstate w = WQuit /\ length (got w) = 1%nat).
Proof.
  intros Hinv Hone Hstep. unfold step in Hstep.
  destruct (exited s) eqn:Hex; [discriminate|].
  destruct c as [| |k].
  - unfold stepMain in Hstep.
    destruct (mainSt s) as [i| |]; [| |discriminate].
    + destruct (i <? maxGoroutines); injection Hstep as <-; simpl;
        [|assumption].
      intros w Hin. apply in_app_or in Hin.
      destruct Hin as [Hin|[<-|[]]]; [auto|left; reflexivity].
    + destruct (wg s =? 0); [|discriminate].
      injection Hstep as <-. assumption.
  - unfold stepProducer in Hstep.
    destruct (producer s) as [|[h| |msg] rest]; [discriminate| | |].
    + destruct (closed s); [|discriminate]. injection Hstep as <-. assumption.
    + destruct (closed s); injection Hstep as <-; assumption.
    + injection Hstep as <-. assumption.
  - unfold stepWorker in Hstep.
    destruct (nth_error (pool s) k) as [[[| |] rcvd]|] eqn:Hk;
      try discriminate.
    assert (Hrcvd : rcvd = []).
    { destruct (Hone _ (nth_error_In _ _ Hk)) as [E|(E & _)];
        [exact E|discriminate]. }
    subst rcvd.
    destruct (closed s) eqn:Hc.
    + injection Hstep as <-. simpl.
      intros w Hin. apply setWorker_In in Hin.
      destruct Hin as [->|Hin]; [left; reflexivity|auto].
    + destruct (producer s) as [|[h| |msg] rest] eqn:Hp; try discriminate.
      assert (Hh : In h hs).
      { destruct Hinv as ([(_ & rest' & Hprod & Hhs) | (Hc' & _)] & _);
          [|congruence].
        rewrite Hp in Hprod. symmetry in Hprod.
        destruct (map_send_cons fin fin_end _ _ _ Hprod) as (r & -> & _).
        rewrite Hhs. apply in_or_app. right. left. reflexivity. }
      destruct (alwaysFails_returns env h (world s) (all_fail h Hh))
        as (t' & Hbody).
      rewrite Hbody in Hstep. injection Hstep as <-. simpl.
      intros w Hin. apply setWorker_In in Hin.
      destruct Hin as [->|Hin]; [right; split; reflexivity|auto].
Qed.

Lemma run_one_record_each (sched : list Choice) : forall s : Sys,
  poolInv env hs fin s ->
  (forall w, In w (pool s) ->
     got w = [] \/ (wstate w = WQuit /\ length (got w) = 1%nat)) ->
  forall w, In w (pool (run env sched s)) ->
    got w = [] \/ (wstate w = WQuit /\ length (got w) = 1%nat).
Proof.
  induction sched as [|c sched IH]; intros s Hinv Hone; simpl; [assumption|].
  destruct (step env c s) as [s'|] eqn:Hstep; [|apply IH; assumption].
  apply IH.
  - eapply step_poolInv; eassumption.
  - eapply step_one_record_each; eassumption.
Qed.

Lemma one_each_length (ws : list Worker) :
  (forall w, In w ws ->
     got w = [] \/ (wstate w = WQuit /\ length (got w) = 1%nat)) ->
  (length (concat (map got ws)) <= length ws)%nat.
Proof.
  induction ws as [|w ws IH]; simpl; intros Hone; [lia|].
  rewrite length_app.
  assert (Hw : (length (got w) <= 1)%nat).
  { destruct (Hone w (or_introl eq_refl)) as [->|(_ & ->)]; simpl; lia. }
  assert (Hrest : (length (concat (map got ws)) <= length ws)%nat).
  { apply IH. intros w' Hin. apply Hone. right. assumption. }
  lia.
Qed.

(** With more failing records than workers, the producer is left waiting
    at a send: the channel is never closed and the process never ends. *)
Lemma more_failures_than_workers (sched : list Choice) :
  (20 < length hs)%nat ->
  let s := run env sched (initSys (map OpSend hs ++ [fin])) in
  closed s = false
  /\ (length (emitted s) <= 20)%nat
  /\ mainSt s <> MReturned
  /\ exited s <> Some 0.
Proof.
  intros Hlen s.
  assert (Hinv : poolInv env hs fin s).
  { apply run_poolInv; [assumption|apply poolInv_init]. }
  assert (Hdel : deliveryInv (map OpSend hs ++ [fin]) s).
  { apply run_deliveryInv. apply deliveryInv_init. }
  assert (Hone : forall w, In w (pool s) ->
            got w = [] \/ (wstate w = WQuit /\ length (got w) = 1%nat)).
  { apply run_one_record_each; [apply poolInv_init|].
    intros w []. }
  destruct Hinv as (Hchan & Hwg & Hmain & Hexit & Hrel & _).
  destruct Hdel as (Hperm & _).
  assert (Hpool : (length (pool s) <= 20)%nat).
  { unfold maxGoroutines in Hmain. destruct (mainSt s); lia. }
  assert (Hem : (length (emitted s) <= 20)%nat).
  { rewrite <- (Permutation_length Hperm). unfold deliveries.
    pose proof (one_each_length _ Hone). lia. }
  assert (Hopen : closed s = false).
  { destruct Hchan as [(Hc & _) | (_ & _ & _ & Hhs)]; [assumption|].
    exfalso. rewrite Hhs, length_map in Hlen. lia. }
  assert (Hnot : mainSt s <> MReturned).
  { intros Hret. rewrite Hret in Hmain. destruct Hmain as (Hz & Hl).
    assert (Hu : unreleased (pool s) = O) by lia.
    destruct (pool s) as [|w ws] eqn:Hp;
      [simpl in Hl; unfold maxGoroutines in Hl; lia|].
    assert (Hw : wstate w = WReleased).
    { apply (unreleased_none _ Hu). left. reflexivity. }
    rewrite (Hrel w (or_introl eq_refl) Hw) in Hopen. discriminate. }
  repeat split; try assumption.
  intros Hex. destruct (mainSt s); tauto.
Qed.

End AllFail.

Lemma allDown_script :
  exists t, pipeHouses Sample.allDown [] = (Ok tt, t)
    /\ producerScript Sample.allDown
       = map OpSend (map Sample.toyHouse (list_ascii_of_string Sample.manyHouses))
           ++ [OpClose].
Proof.
  eexists. split; vm_compute; reflexivity.
Qed.

(** C3, on the code: page 1 lists 21 houses and no photo can be fetched. The
    producer's own run has no fatal error and holds 21 sends and the close;
    but each of the 20 workers returns from its function after the one
    record it takes, so under every schedule at most 20 records are sent, the
    channel is never closed and the process never ends. (The claim has all
    records sent and the channel closed.) *)
Theorem producer_never_closes_when_workers_are_gone :
  (exists t,
      pipeHouses Sample.allDown [] = (Ok tt, t)
      /\ length (sendsOf (chanOps t)) = 21%nat
      /\ In OpClose (chanOps t))
  /\ (forall sched : list Choice,
        closed (program Sample.allDown sched) = false
        /\ (length (emitted (program Sample.allDown sched)) <= 20)%nat
        /\ mainSt (program Sample.allDown sched) <> MReturned
        /\ exited (program Sample.allDown sched) = None)
  /\ (let s := program Sample.allDown Sample.everyWorkerTakesOne in
      length (emitted s) = 20%nat
      /\ producer s = [OpSend (Sample.toyHouse "u"); OpClose]
      /\ map wstate (pool s) = repeat WQuit 20
      /\ step Sample.allDown CMain s = None
      /\ step Sample.allDown CProducer s = None
      /\ forall k, step Sample.allDown (CWorker k) s = None).
Proof.
  split; [|split].
  - eexists. split; [vm_compute; reflexivity|].
    split; [vm_compute; reflexivity|]. vm_compute. tauto.
  - intros sched.
    destruct allDown_script as (t & Hrun & Hscript).
    pose proof (more_failures_than_workers Sample.allDown
                  (map Sample.toyHouse (list_ascii_of_string Sample.manyHouses))
                  OpClose (or_introl eq_refl)) as Hgen.
    assert (Hall : forall h,
              In h (map Sample.toyHouse (list_ascii_of_string Sample.manyHouses)) ->
              alwaysFails Sample.allDown h).
    { intros h Hin n. exists Sample.timeout.
      simpl in Hin.
      repeat (destruct Hin as [<-|Hin]; [reflexivity|]). destruct Hin. }
    specialize (Hgen Hall sched ltac:(vm_compute; lia)).
    unfold program. rewrite Hscript.
    destruct Hgen as (Hc & Hem & Hm & Hex).
    repeat split; try assumption.
    destruct (exited (run Sample.allDown sched _)) as [c|] eqn:E; [|reflexivity].
    exfalso.
    destruct (program_exit_codes Sample.allDown sched c) as [->|(_ & msg & t' & Hf)].
    + unfold program. rewrite Hscript. exact E.
    + apply Hex. reflexivity.
    + rewrite Hrun in Hf. discriminate.
  - repeat split; try (vm_compute; reflexivity).
    intros k.
    do 20 (destruct k as [|k]; [vm_compute; reflexivity|]).
    vm_compute. destruct k; reflexivity.
Qed.

(** ** Further facts: requestWithRetry *)

(** X2: requestWithRetry always ends, by returning or by log.Fatalf; it
    issues at least one and at most 20 GETs, all of the given URL, and does
    nothing else; it is fatal only after the 20th. *)
Theorem requestWithRetry_request_budget :
  forall (env : Env) (url : string) (t : Trace),
    exists K : nat,
      (1 <= K <= 20)%nat
      /\ snd (requestWithRetry env url t) = t ++ repeat (EGet url) K
      /\ ((exists r, fst (requestWithRetry env url t) = Ok r)
          \/ (K = 20%nat
              /\ fst (requestWithRetry env url t)
                 = Fatal (consistentlyFailing url))).
Proof.
  intros env url t.
  destruct (request_cases env url t)
    as [(K & rsp & HK & _ & _ & _ & Heq)
       | [(K & e & HK & _ & _ & Heq) | (_ & Heq)]]; rewrite Heq; simpl.
  - exists (S K). split; [lia|]. split; [reflexivity|]. left. eauto.
  - exists (S K). split; [lia|]. split; [reflexivity|]. left. eauto.
  - exists 20%nat. split; [lia|]. split; [reflexivity|]. right. auto.
Qed.

(** X3: requestWithRetry ends the process exactly when the next 20 answers
    of the endpoint all have a status other than 200; the message is then
    the one naming the URL. *)
Theorem requestWithRetry_fatal_iff :
  forall (env : Env) (url : string) (t : Trace) (msg : string),
    (exists t', requestWithRetry env url t = (Fatal msg, t'))
    <-> (retried env url (getsOf url t) 20
         /\ msg = consistentlyFailing url).
Proof.
  intros env url t msg. split.
  - intros (t' & Hrun).
    destruct (request_cases env url t)
      as [(K & rsp & HK & _ & _ & _ & Heq)
         | [(K & e & HK & _ & _ & Heq) | (Hr & Heq)]];
      rewrite Heq in Hrun; try discriminate.
    inversion Hrun. split; [assumption|reflexivity].
  - intros (Hr & ->). eexists. apply request_fatal. assumption.
Qed.

Lemma requestWithRetry_fatal_iff_witness :
  exists t',
    requestWithRetry Sample.alwaysBusy Sample.url []
    = (Fatal (consistentlyFailing Sample.url), t').
Proof.
  apply (proj2 (requestWithRetry_fatal_iff Sample.alwaysBusy Sample.url []
                  (consistentlyFailing Sample.url))).
  split; [intros n Hn; reflexivity|reflexivity].
Defined.

(** ** Further facts: the download body and the workers *)

Lemma donesOf_app (t t' : Trace) : donesOf (t ++ t') = (donesOf t + donesOf t')%nat.
Proof. unfold donesOf. rewrite filter_app, length_app. reflexivity. Qed.


Lemma getsOf_one (u v : string) :
  getsOf u [EGet v] = if String.eqb v u then 1%nat else 0%nat.
Proof. unfold getsOf. simpl. destruct (String.eqb v u); reflexivity. Qed.

(** The body's run, step by step. *)
Lemma downloadBody_run (env : Env) (h : house) (t : Trace) :
  downloadBody env h t
  = match serverGet env (PhotoURL h) (getsOf (PhotoURL h) t) with
    | GetErr e | GetRespErr _ e =>
        (Ok Return,
         t ++ [EGet (PhotoURL h);
               ELog (String newline (fileName h)) ("error getting photo: " ++ e)])
    | GetResp rsp =>
        match osCreate env (fileName h) with
        | Some e =>
            (Ok Return,
             t ++ [EGet (PhotoURL h);
                   ELog (String newline (fileName h))
                     ("could not create file: " ++ e)])
        | None =>
            match ioCopy env (fileName h) (Body rsp) with
            | Some e =>
                (Ok Return,
                 t ++ [EGet (PhotoURL h); ECreate (fileName h);
                       ELog (String newline (fileName h))
                         ("error copying file contents: " ++ e)])
            | None =>
                (Ok FallThrough,
                 t ++ [EGet (PhotoURL h); ECreate (fileName h);
                       ECopy (fileName h) (Body rsp)])
            end
        end
    end.
Proof.
  unfold downloadBody, bind, clientGet, emit, ret.
  destruct (serverGet env (PhotoURL h) (getsOf (PhotoURL h) t)) as [r|e|r e];
    simpl; rewrite <- ?app_assoc; try reflexivity.
  destruct (osCreate env (fileName h)); simpl; rewrite <- ?app_assoc;
    try reflexivity.
  destruct (ioCopy env (fileName h) (Body r)); simpl; rewrite <- ?app_assoc;
    reflexivity.
Qed.

(** X4: the download body does not look at the status of the photo's
    response: whatever the status, when the file can be created and filled
    the response body is written to the house's file and the loop goes on. *)
Theorem downloadBody_saves_any_status :
  forall (env : Env) (h : house) (t : Trace) (rsp : Response),
    serverGet env (PhotoURL h) (getsOf (PhotoURL h) t) = GetResp rsp ->
    osCreate env (fileName h) = None ->
    ioCopy env (fileName h) (Body rsp) = None ->
    downloadBody env h t
    = (Ok FallThrough,
       t ++ [EGet (PhotoURL h); ECreate (fileName h);
             ECopy (fileName h) (Body rsp)]).
Proof.
  intros env h t rsp Hg Hc Hcp.
  rewrite downloadBody_run, Hg, Hc, Hcp. reflexivity.
Qed.

Lemma downloadBody_saves_any_status_witness :
  downloadBody Sample.missingPhoto Sample.houseA []
  = (Ok FallThrough,
     [] ++ [EGet (PhotoURL Sample.houseA); ECreate (fileName Sample.houseA);
            ECopy (fileName Sample.houseA) (Body (mkResponse 404 "Not Found"))]).
Proof.
  apply (downloadBody_saves_any_status Sample.missingPhoto Sample.houseA []
           (mkResponse 404 "Not Found")); reflexivity.
Defined.

(** What one run of the body adds to the trace. *)
Lemma downloadBody_trace :
  forall (env : Env) (h : house) (t : Trace),
    exists (f : Flow) (d : Trace),
      downloadBody env h t = (Ok f, t ++ d)
      /\ (forall u, getsOf u d
                    = if String.eqb (PhotoURL h) u then 1%nat else 0%nat)
      /\ logsOf d = match f with FallThrough => 0%nat | Return => 1%nat end
      /\ donesOf d = 0%nat
      /\ chanOps d = [].
Proof.
  intros env h t. rewrite downloadBody_run.
  destruct (serverGet env (PhotoURL h) (getsOf (PhotoURL h) t)) as [r|e|r e].
  - destruct (osCreate env (fileName h)).
    + eexists _, _. split; [reflexivity|]. repeat split.
      intros u. unfold getsOf. simpl. destruct (String.eqb (PhotoURL h) u); reflexivity.
    + destruct (ioCopy env (fileName h) (Body r));
        (eexists _, _; split; [reflexivity|]; repeat split;
         intros u; unfold getsOf; simpl;
         destruct (String.eqb (PhotoURL h) u); reflexivity).
  - eexists _, _. split; [reflexivity|]. repeat split.
    intros u. unfold getsOf. simpl. destruct (String.eqb (PhotoURL h) u); reflexivity.
  - eexists _, _. split; [reflexivity|]. repeat split.
    intros u. unfold getsOf. simpl. destruct (String.eqb (PhotoURL h) u); reflexivity.
Qed.

(** X5: the download body always returns; it issues exactly one GET, of the
    house's photo URL, without retry; it writes one log line when it leaves
    by a return and none when it falls through; it never calls wg.Done and
    never touches the channel. *)
Theorem downloadBody_one_get_one_log :
  forall (env : Env) (h : house) (t : Trace),
    exists (f : Flow) (d : Trace),
      downloadBody env h t = (Ok f, t ++ d)
      /\ (forall u, getsOf u d
                    = if String.eqb (PhotoURL h) u then 1%nat else 0%nat)
      /\ logsOf d = match f with FallThrough => 0%nat | Return => 1%nat end
      /\ donesOf d = 0%nat
      /\ chanOps d = [].
Proof.
  intros env h t. apply downloadBody_trace.
Qed.


(** X7: main.go's downloadHouseImage always returns, issues one GET of the
    photo URL, and calls wg.Done exactly once, as its last act, whether the
    download worked or not. *)
Theorem downloadHouseImage_always_done :
  forall (env : Env) (h : house) (t : Trace),
    exists d,
      downloadHouseImage env h t = (Ok tt, t ++ d ++ [EDone])
      /\ donesOf d = 0%nat
      /\ getsOf (PhotoURL h) d = 1%nat.
Proof.
  intros env h t. unfold downloadHouseImage, bind, emit.
  destruct (downloadBody_trace env h t)
    as (f & d & Hrun & Hget & _ & Hdone & _).
  rewrite Hrun. exists d. rewrite app_assoc.
  split; [reflexivity|]. split; [assumption|].
  rewrite Hget, String.eqb_refl. reflexivity.
Qed.

(** ** Further facts: the producer *)

Section MorePipeFacts.

Variable env : Env.

Lemma getsOf_gets (u v : string) (K : nat) :
  getsOf u (repeat (EGet v) K) = if String.eqb v u then K else O.
Proof.
  destruct (String.eqb_spec v u) as [->|Hne].
  - apply getsOf_repeat.
  - apply getsOf_other_repeat. congruence.
Qed.

(** One page from any trace: up to 20 GETs of its endpoint, then its
    sends, if any. *)
Lemma pipePage_trace (i : Z) (t : Trace) :
  exists r (K : nat) (sent : list house),
    pipePage env i t
    = (r, t ++ repeat (EGet (pageEndpoint i)) K ++ map ESend sent)
    /\ (1 <= K <= 20)%nat.
Proof.
  unfold pipePage, bind.
  destruct (request_cases env (pageEndpoint i) t)
    as [(K & rsp & HK & _ & _ & _ & Heq)
       | [(K & e & HK & _ & _ & Heq) | (_ & Heq)]]; rewrite Heq; cbn [fst snd].
  - destruct (jsonDecode env (Body rsp)) as [e|d].
    + eexists _, (S K), []. split; [|lia]. cbn [map]. rewrite app_nil_r. reflexivity.
    + eexists _, (S K), (Houses d). rewrite sendAll_run, <- app_assoc.
      split; [reflexivity|lia].
  - eexists _, (S K), []. split; [|lia]. cbn [map]. rewrite app_nil_r. reflexivity.
  - eexists _, 20%nat, []. split; [|lia]. cbn [map]. rewrite app_nil_r. reflexivity.
Qed.

Lemma pageLoop_budget (fuel : nat) : forall (i : Z) (t : Trace),
  exists r d,
    pageLoop env fuel i t = (r, t ++ d)
    /\ forall u,
         (getsOf u d <= 20)%nat
         /\ ((forall j, i <= j <= 10 -> u <> pageEndpoint j) -> getsOf u d = O).
Proof.
  induction fuel as [|fuel IH]; intros i t.
  - exists OutOfFuel, []. rewrite app_nil_r. split; [reflexivity|].
    intros u. split; [unfold getsOf; simpl; lia|reflexivity].
  - simpl. destruct (Z.leb_spec i 10) as [Hle|Hgt].
    + unfold bind.
      destruct (pipePage_trace i t) as (r & K & sent & Hrun & HK).
      rewrite Hrun.
      set (d1 := repeat (EGet (pageEndpoint i)) K ++ map ESend sent).
      assert (Hd1 : forall u, getsOf u d1
                              = if String.eqb (pageEndpoint i) u then K else O).
      { intros u. unfold d1. rewrite getsOf_app, getsOf_sends, getsOf_gets. lia. }
      destruct r as [[]|msg| |];
        try (eexists _, d1; split; [reflexivity|];
             intros u; rewrite Hd1; split;
             [destruct (String.eqb (pageEndpoint i) u); lia
             |intros Hnot; destruct (String.eqb_spec (pageEndpoint i) u) as [E|_];
              [exfalso; apply (Hnot i); [lia|congruence]|reflexivity]]).
      destruct (IH (i + 1) (t ++ d1)) as (r' & d' & Hrun' & Hd').
      rewrite Hrun'. exists r', (d1 ++ d'). rewrite app_assoc.
      split; [reflexivity|].
      intros u. rewrite getsOf_app, Hd1. destruct (Hd' u) as (Hle' & Hzero).
      destruct (String.eqb_spec (pageEndpoint i) u) as [E|Hne].
      * rewrite Hzero; [split; [lia|]|].
        -- intros Hnot. exfalso. apply (Hnot i); [lia|congruence].
        -- intros j Hj Ej. subst u. apply pageEndpoint_inj in Ej. lia.
      * split; [lia|]. intros Hnot. simpl. apply Hzero.
        intros j Hj. apply Hnot. lia.
    + exists (Ok tt), []. rewrite app_nil_r. split; [reflexivity|].
      intros u. split; [unfold getsOf; simpl; lia|reflexivity].
Qed.

(** A page is requested only after the pages before it were decoded. *)
Lemma pageLoop_in_order (n : nat) : forall (i : Z) (t : Trace) r t',
  i + Z.of_nat n = 11 ->
  (forall j, i <= j <= 10 -> getsOf (pageEndpoint j) t = O) ->
  pageLoop env (S n) i t = (r, t') ->
  forall j, i <= j <= 10 ->
    getsOf (pageEndpoint j) t' <> O ->
    forall j', i <= j' < j -> exists hs, pageDecodesTo env j' hs.
Proof.
  induction n as [|n IH]; intros i t r t' Hi Hfresh Hrun j Hj Hreq j' Hj'.
  - lia.
  - change (pageLoop env (S (S n)) i t)
      with ((if i <=? 10 then pipePage env i ;;; pageLoop env (S n) (i + 1)
             else ret tt) t) in Hrun.
    destruct (Z.leb_spec i 10) as [_|]; [|lia].
    unfold bind in Hrun.
    destruct (pipePage_cases env i t) as [(hs & K & Hd & Heq) | (c & K & Hf & Heq)];
      [apply Hfresh; lia| |]; rewrite Heq in Hrun.
    + destruct (Z.eq_dec j' i) as [->|Hne]; [exists hs; assumption|].
      refine (IH (i + 1) _ r t' _ _ Hrun j _ Hreq j' _); try lia.
      intros k Hk. rewrite !getsOf_app, getsOf_sends, getsOf_other_repeat.
      * rewrite Hfresh; [reflexivity|lia].
      * intros E. apply pageEndpoint_inj in E. lia.
    + inversion Hrun; subst. exfalso. apply Hreq.
      rewrite getsOf_app, getsOf_other_repeat.
      * rewrite Hfresh; [reflexivity|lia].
      * intros E. apply pageEndpoint_inj in E. lia.
Qed.

End MorePipeFacts.

(** X8: in a run of the producer no URL is requested more than 20 times,
    and nothing but the endpoints of pages 1 to 10 is requested. *)
Theorem pipeHouses_request_budget :
  forall (env : Env) (u : string),
    (getsOf u (snd (pipeHouses env [])) <= 20)%nat
    /\ ((forall j, 1 <= j <= 10 -> u <> pageEndpoint j) ->
        getsOf u (snd (pipeHouses env [])) = O).
Proof.
  intros env u. unfold pipeHouses, bind.
  destruct (pageLoop_budget env 11 1 []) as (r & d & Hrun & Hd).
  rewrite Hrun. simpl in *. destruct (Hd u) as (Hle & Hzero).
  destruct r as [[]|msg| |]; simpl; unfold emit; simpl;
    rewrite ?getsOf_app; unfold getsOf at 2; simpl; rewrite ?Nat.add_0_r;
    (split; [assumption|assumption]).
Qed.

(** X9: the producer requests the pages in order: a page is requested only
    after every page before it was fetched and decoded, so nothing is
    requested after a page that fails. *)
Theorem pipeHouses_requests_pages_in_order :
  forall (env : Env) (j j' : Z),
    1 <= j' < j -> j <= 10 ->
    getsOf (pageEndpoint j) (snd (pipeHouses env [])) <> O ->
    exists hs, pageDecodesTo env j' hs.
Proof.
  intros env j j' Hj' Hj Hreq.
  unfold pipeHouses, bind in Hreq.
  destruct (pageLoop env 11 1 []) as [r t1] eqn:Hrun.
  apply (pageLoop_in_order env 10 1 [] r t1 eq_refl
           (fun _ _ => eq_refl) Hrun j); try lia.
  destruct r as [[]|msg| |]; simpl in Hreq; try assumption.
  unfold emit in Hreq. simpl in Hreq. rewrite getsOf_app in Hreq.
  unfold getsOf at 2 in Hreq. simpl in Hreq. rewrite Nat.add_0_r in Hreq.
  assumption.
Qed.

Lemma pipeHouses_request_budget_witness :
  getsOf (PhotoURL Sample.houseA) (snd (pipeHouses Sample.healthy [])) = O.
Proof.
  apply (proj2 (pipeHouses_request_budget Sample.healthy (PhotoURL Sample.houseA))).
  intros j Hj E.
  assert (Hcases : j = 1 \/ j = 2 \/ j = 3 \/ j = 4 \/ j = 5 \/ j = 6
                   \/ j = 7 \/ j = 8 \/ j = 9 \/ j = 10) by lia.
  repeat (destruct Hcases as [-> | Hcases]; [vm_compute in E; discriminate E|]).
  subst j. vm_compute in E. discriminate E.
Defined.

Lemma pipeHouses_requests_pages_in_order_witness :
  exists hs, pageDecodesTo Sample.healthy 1 hs.
Proof.
  apply (pipeHouses_requests_pages_in_order Sample.healthy 2 1).
  - lia.
  - lia.
  - vm_compute. discriminate.
Defined.

(** X10: when a page ends the producer with log.Fatalf, its run holds no
    close; and in the running program, under every schedule, the channel is
    never closed, main never gets past wg.Wait and the process never exits
    with code 0. *)
Theorem fatal_page_never_closes :
  forall (env : Env) (msg : string) (t : Trace),
    pipeHouses env [] = (Fatal msg, t) ->
    ~ In OpClose (chanOps t)
    /\ forall sched : list Choice,
        closed (program env sched) = false
        /\ mainSt (program env sched) <> MReturned
        /\ exited (program env sched) <> Some 0.
Proof.
  intros env msg t Hrun.
  destruct (pipeHouses_run env)
    as [(pages & t' & _ & Hrun' & _)
       | (m & c & pages & t' & _ & _ & _ & Hrun' & Hops)];
    rewrite Hrun' in Hrun; [discriminate|].
  inversion Hrun; subst. clear Hrun.
  split.
  - rewrite Hops. intros Hin. apply in_map_iff in Hin.
    destruct Hin as (h & Hh & _). discriminate.
  - intros sched.
    assert (Hscript : producerScript env
                      = map OpSend (concat pages)
                          ++ [OpFatal (fatalMessage (1 + Z.of_nat m) c)]).
    { unfold producerScript. rewrite Hrun', Hops. reflexivity. }
    destruct (program_poolInv env sched _ _
                (or_intror (ex_intro _ _ eq_refl)) Hscript)
      as (Hchan & Hwg & Hmain & Hexit & Hrel & _).
    assert (Hopen : closed (program env sched) = false).
    { destruct Hchan as [(Hc & _) | (_ & Hfin & _)]; [assumption|discriminate]. }
    assert (Hnot : mainSt (program env sched) <> MReturned).
    { intros Hret. rewrite Hret in Hmain. destruct Hmain as (Hz & Hlen).
      assert (Hu : unreleased (pool (program env sched)) = O) by lia.
      destruct (pool (program env sched)) as [|w ws] eqn:Hpool;
        [simpl in Hlen; unfold maxGoroutines in Hlen; lia|].
      assert (Hw : wstate w = WReleased).
      { apply (unreleased_none _ Hu). left. reflexivity. }
      rewrite (Hrel w (or_introl eq_refl) Hw) in Hopen. discriminate. }
    split; [assumption|]. split; [assumption|].
    intros Hex. destruct (mainSt (program env sched)); tauto.
Qed.

Lemma fatal_page_never_closes_witness :
  ~ In OpClose (chanOps (snd (pipeHouses Sample.alwaysBusy [])))
  /\ forall sched : list Choice,
      closed (program Sample.alwaysBusy sched) = false
      /\ mainSt (program Sample.alwaysBusy sched) <> MReturned
      /\ exited (program Sample.alwaysBusy sched) <> Some 0.
Proof.
  apply (fatal_page_never_closes Sample.alwaysBusy
           (fatalMessage 1 RetryBudgetExhausted)).
  vm_compute. reflexivity.
Defined.

(** ** Further facts: the first loop of main.go *)

Section FetchFacts.

Variable env : Env.




End FetchFacts.



(** ** Further facts: the goroutines of main.go *)

Section FanFacts.

Variable env : Env.

(** The goroutine of the earlier program: the body's events, then Done. *)
Lemma downloadHouseImage_run (h : house) (t : Trace) :
  exists d,
    downloadHouseImage env h t = (Ok tt, t ++ d ++ [EDone])
    /\ donesOf d = O
    /\ In (EGet (PhotoURL h)) d.
Proof.
  unfold downloadHouseImage, bind, emit. rewrite downloadBody_run.
  destruct (serverGet env (PhotoURL h) (getsOf (PhotoURL h) t)) as [r|e|r e];
    [destruct (osCreate env (fileName h));
     [|destruct (ioCopy env (fileName h) (Body r))]| |];
    (eexists; rewrite <- app_assoc; split; [reflexivity|];
     split; [reflexivity|left; reflexivity]).
Qed.

Lemma fanRun_app (a b : list FanChoice) : forall s : Fan,
  fanRun env (a ++ b) s = fanRun env b (fanRun env a s).
Proof.
  induction a as [|c a IH]; intros s; simpl; [reflexivity|].
  destruct (fanStep env c s); apply IH.
Qed.

Lemma markDone_houses (ts : list Task) : forall k : nat,
  map thouse (markDone k ts) = map thouse ts.
Proof.
  induction ts as [|a ts IH]; intros [|k]; simpl; try reflexivity.
  f_equal. apply IH.
Qed.

Lemma markDone_length (ts : list Task) : forall k : nat,
  length (markDone k ts) = length ts.
Proof.
  induction ts as [|a ts IH]; intros [|k]; simpl; auto.
Qed.

Lemma markDone_count (ts : list Task) : forall (k : nat) (h : house),
  nth_error ts k = Some (mkTask h false) ->
  doneTasks (markDone k ts) = S (doneTasks ts).
Proof.
  unfold doneTasks.
  induction ts as [|a ts IH]; intros [|k] h Hk; simpl in *; try discriminate.
  - inversion Hk; subst. reflexivity.
  - destruct (tdone a); simpl; [f_equal|]; eauto.
Qed.

Lemma markDone_In (ts : list Task) : forall (k : nat) (h : house) (x : Task),
  nth_error ts k = Some (mkTask h false) ->
  In x (markDone k ts) -> x = mkTask h true \/ In x ts.
Proof.
  induction ts as [|a ts IH]; intros [|k] h x Hk Hin; simpl in *;
    try discriminate.
  - inversion Hk; subst. simpl in Hin.
    destruct Hin as [<-|Hin]; [left; reflexivity|right; right; assumption].
  - destruct Hin as [<-|Hin]; [right; left; reflexivity|].
    destruct (IH _ _ _ Hk Hin); [left|right; right]; assumption.
Qed.

Lemma doneTasks_le (ts : list Task) : (doneTasks ts <= length ts)%nat.
Proof. unfold doneTasks. apply filter_length_le. Qed.

Lemma doneTasks_all (ts : list Task) :
  doneTasks ts = length ts -> forall k, In k ts -> tdone k = true.
Proof.
  unfold doneTasks. induction ts as [|a ts IH]; simpl; intros H k Hin;
    [contradiction|].
  pose proof (filter_length_le tdone ts) as Hle.
  destruct (tdone a) eqn:Ha; simpl in H; [|lia].
  destruct Hin as [<-|Hin]; [assumption|]. apply IH; [lia|assumption].
Qed.

Lemma doneTasks_app (a b : list Task) :
  doneTasks (a ++ b) = (doneTasks a + doneTasks b)%nat.
Proof. unfold doneTasks. rewrite filter_app, length_app. reflexivity. Qed.

Variable hs : list house.
Variable t0 : Trace.

Lemma fanInv_init : fanInv hs t0 (fanInit hs t0).
Proof.
  unfold fanInv, fanInit, doneTasks; simpl.
  split; [reflexivity|]. split; [reflexivity|].
  split; [discriminate|]. split; [discriminate|].
  split; [lia|]. intros k [].
Qed.

Lemma fanStep_inv (c : FanChoice) (s s' : Fan) :
  fanInv hs t0 s -> fanStep env c s = Some s' -> fanInv hs t0 s'.
Proof.
  intros (Hh & Hwg & Hret & Hex0 & Hdone & Hget) Hstep.
  unfold fanStep in Hstep.
  destruct (fexited s) eqn:Hex; [discriminate|].
  destruct c as [|k].
  - unfold fanStepMain in Hstep.
    destruct (fmain s) as [[|h rest]|rest| |] eqn:Hm; simpl in *.
    + injection Hstep as <-. unfold fanInv; simpl. rewrite Hex.
      split; [assumption|]. split; [assumption|].
      split; [discriminate|]. split; [discriminate|].
      split; assumption.
    + injection Hstep as <-. unfold fanInv; simpl. rewrite Hex.
      rewrite map_app, <- app_assoc, length_app, doneTasks_app. simpl.
      split; [assumption|]. split; [unfold doneTasks at 2; simpl; lia|].
      split; [discriminate|]. split; [discriminate|].
      split; [unfold doneTasks at 2; simpl; lia|].
      intros k Hin Hk. apply in_app_or in Hin.
      destruct Hin as [Hin|[<-|[]]]; [auto|discriminate].
    + injection Hstep as <-. unfold fanInv; simpl. rewrite Hex.
      split; [assumption|]. split; [lia|].
      split; [discriminate|]. split; [discriminate|].
      split; assumption.
    + destruct (Z.eqb_spec (fwg s) 0); [|discriminate].
      injection Hstep as <-. unfold fanInv; simpl.
      split; [assumption|]. split; [lia|].
      split; [intros _; assumption|]. split; [reflexivity|].
      split; assumption.
    + discriminate.
  - unfold fanStepTask in Hstep.
    destruct (nth_error (tasks s) k) as [[h [|]]|] eqn:Hk; try discriminate.
    destruct (downloadHouseImage_run h (fworld s)) as (d & Hrun & Hd0 & Hin).
    rewrite Hrun in Hstep. injection Hstep as <-.
    unfold fanInv; simpl.
    rewrite markDone_houses, markDone_length, (markDone_count _ _ _ Hk).
    split; [assumption|]. split; [lia|].
    split; [intros Hm; exfalso; specialize (Hret Hm);
            pose proof (doneTasks_le (tasks s)) as Hle;
            rewrite Hm in Hwg; simpl in Hwg;
            assert (Hall : doneTasks (tasks s) = length (tasks s)) by lia;
            pose proof (doneTasks_all _ Hall _ (nth_error_In _ _ Hk));
            discriminate|].
    split.
    { intros H0. destruct (fwg s - 1 <? 0); [discriminate|].
      rewrite Hex in H0. discriminate. }
    split.
    { rewrite !donesOf_app, Hdone, Hd0. unfold donesOf at 2. simpl. lia. }
    intros x Hx Hxd. apply (markDone_In _ _ _ _ Hk) in Hx.
    destruct Hx as [->|Hx]; simpl.
    + apply in_or_app. right. apply in_or_app. left. assumption.
    + apply in_or_app. left. auto.
Qed.

Lemma fanRun_inv (sched : list FanChoice) : forall s : Fan,
  fanInv hs t0 s -> fanInv hs t0 (fanRun env sched s).
Proof.
  induction sched as [|c sched IH]; intros s Hinv; simpl; [assumption|].
  destruct (fanStep env c s) as [s'|] eqn:Hstep; [|auto].
  apply IH. eapply fanStep_inv; eassumption.
Qed.

End FanFacts.

Section FanSchedules.

Variable env : Env.

Lemma markDone_middle (done : list Task) : forall (x : Task) (rest : list Task),
  markDone (length done) (done ++ x :: rest)
  = done ++ mkTask (thouse x) true :: rest.
Proof.
  induction done as [|a done IH]; intros x rest; simpl; [reflexivity|].
  f_equal. apply IH.
Qed.

Lemma nth_error_middle (done : list Task) (x : Task) (rest : list Task) :
  nth_error (done ++ x :: rest) (length done) = Some x.
Proof.
  induction done as [|a done IH]; simpl; [reflexivity|assumption].
Qed.

(** main runs its loop to the end: every goroutine started, every Add
    made. *)
Lemma fan_spawn_all (rest : list house) : forall (ts : list Task) (g : Z) (w : Trace),
  fanRun env (repeat FMain (2 * length rest + 1)) (mkFan (FGo rest) ts g w None)
  = mkFan FWait (ts ++ map (fun h => mkTask h false) rest)
      (g + Z.of_nat (length rest)) w None.
Proof.
  induction rest as [|h rest IH]; intros ts g w.
  - simpl. rewrite app_nil_r, Z.add_0_r. reflexivity.
  - replace (2 * length (h :: rest) + 1)%nat
      with (S (S (2 * length rest + 1))) by (simpl; lia).
    cbn [repeat fanRun]. unfold fanStep at 1. cbn [fexited fanStepMain fmain].
    cbn [tasks fwg fworld fexited].
    unfold fanStep at 1. cbn [fexited fanStepMain fmain].
    cbn [tasks fwg fworld fexited].
    rewrite IH, <- app_assoc. cbn [map app length].
    f_equal. lia.
Qed.

(** Then the goroutines run one after the other. *)
Lemma fan_run_tasks (pend : list house) : forall (done : list Task) (w : Trace),
  exists w',
    fanRun env (map FTask (seq (length done) (length pend)))
      (mkFan FWait (done ++ map (fun h => mkTask h false) pend)
         (Z.of_nat (length pend)) w None)
    = mkFan FWait (done ++ map (fun h => mkTask h true) pend) 0 w' None.
Proof.
  induction pend as [|h pend IH]; intros done w.
  - exists w. reflexivity.
  - cbn [length seq map fanRun]. unfold fanStep at 1. cbn [fexited].
    unfold fanStepTask. cbn [tasks fworld fwg fmain fexited].
    rewrite nth_error_middle.
    destruct (downloadHouseImage_run env h w) as (d & Hrun & _).
    rewrite Hrun, markDone_middle. cbn [thouse].
    destruct (Z.ltb_spec (Z.of_nat (S (length pend)) - 1) 0) as [Hneg|_]; [lia|].
    replace (Z.of_nat (S (length pend)) - 1) with (Z.of_nat (length pend)) by lia.
    destruct (IH (done ++ [mkTask h true]) (w ++ d ++ [EDone])) as (w' & Hrest).
    rewrite length_app, Nat.add_1_r, <- !app_assoc in Hrest. cbn [app] in Hrest.
    exists w'. rewrite Hrest. reflexivity.
Qed.

Lemma fan_mainFirst (hs : list house) (t : Trace) :
  exists w,
    fanRun env (mainFirst (length hs)) (fanInit hs t)
    = mkFan FReturned (map (fun h => mkTask h true) hs) 0 w (Some 0).
Proof.
  unfold mainFirst, fanInit. rewrite !fanRun_app, fan_spawn_all.
  cbn [app]. rewrite Z.add_0_l.
  destruct (fan_run_tasks hs [] t) as (w & Hrun).
  cbn [length app] in Hrun. rewrite Hrun.
  exists w. reflexivity.
Qed.

Lemma fan_done_first (h : house) (rest : list house) (t : Trace) :
  exists w,
    fanRun env [FMain; FTask 0] (fanInit (h :: rest) t)
    = mkFan (FAdd rest) [mkTask h true] (-1) w (Some 2).
Proof.
  unfold fanInit. cbn [fanRun]. unfold fanStep at 1.
  cbn [fexited fanStepMain fmain tasks fwg fworld app].
  unfold fanStep at 1. cbn [fexited]. unfold fanStepTask.
  cbn [tasks nth_error fworld fwg fmain fexited markDone thouse].
  destruct (downloadHouseImage_run env h t) as (d & Hrun & _).
  rewrite Hrun. exists (t ++ d ++ [EDone]). reflexivity.
Qed.

End FanSchedules.

(** X12: main.go starts each goroutine before it calls wg.Add(1). When the
    first goroutine runs to its deferred wg.Done before main's Add, the
    counter goes to -1 and the process panics. *)
Theorem earlierProgram_done_before_add_panics :
  forall (env : Env) (h : house) (rest : list house) (t0 : Trace),
    fetchAllHouses env [] = (Ok (h :: rest), t0) ->
    fexited (earlierProgram env [FMain; FTask 0]) = Some 2
    /\ fwg (earlierProgram env [FMain; FTask 0]) = -1.
Proof.
  intros env h rest t0 Hfetch. unfold earlierProgram. rewrite Hfetch.
  destruct (fan_done_first env h rest t0) as (w & ->).
  split; reflexivity.
Qed.

(** X13: when main.go's process exits with code 0, a goroutine was started
    for every house, in order, each of them ran to its end, wg.Done was
    called once per house, and every photo was requested. *)
Theorem earlierProgram_returns_after_all_ran :
  forall (env : Env) (sched : list FanChoice) (allHouses : list house)
         (t0 : Trace),
    fetchAllHouses env [] = (Ok allHouses, t0) ->
    fexited (earlierProgram env sched) = Some 0 ->
    map thouse (tasks (earlierProgram env sched)) = allHouses
    /\ (forall k, In k (tasks (earlierProgram env sched)) -> tdone k = true)
    /\ donesOf (fworld (earlierProgram env sched))
       = (donesOf t0 + length allHouses)%nat
    /\ (forall h, In h allHouses ->
          In (EGet (PhotoURL h)) (fworld (earlierProgram env sched))).
Proof.
  intros env sched allHouses t0 Hfetch Hexit.
  unfold earlierProgram in *. rewrite Hfetch in *.
  pose proof (fanRun_inv env allHouses t0 sched _ (fanInv_init allHouses t0))
    as (Hh & Hwg & Hret & Hex0 & Hdone & Hget).
  set (s := fanRun env sched (fanInit allHouses t0)) in *.
  specialize (Hex0 Hexit). specialize (Hret Hex0).
  rewrite Hex0 in Hh, Hwg. simpl in Hh, Hwg. rewrite app_nil_r in Hh.
  assert (Hall : doneTasks (tasks s) = length (tasks s)) by lia.
  pose proof (doneTasks_all _ Hall) as Hevery.
  split; [assumption|]. split; [assumption|].
  split.
  - rewrite Hdone, Hall, <- Hh, length_map. reflexivity.
  - intros h Hin. rewrite <- Hh in Hin. apply in_map_iff in Hin.
    destruct Hin as (k & <- & Hk). apply Hget; [assumption|auto].
Qed.

(** X14: when main.go's main runs its loop to the end before the goroutines
    move, wg.Wait returns and the process exits with code 0, whatever
    downloads fail. *)
Theorem earlierProgram_main_first_returns :
  forall (env : Env) (allHouses : list house) (t0 : Trace),
    fetchAllHouses env [] = (Ok allHouses, t0) ->
    fmain (earlierProgram env (mainFirst (length allHouses))) = FReturned
    /\ fexited (earlierProgram env (mainFirst (length allHouses))) = Some 0
    /\ fwg (earlierProgram env (mainFirst (length allHouses))) = 0.
Proof.
  intros env allHouses t0 Hfetch. unfold earlierProgram. rewrite Hfetch.
  destruct (fan_mainFirst env allHouses t0) as (w & ->).
  repeat split.
Qed.

Lemma earlierProgram_done_before_add_panics_witness :
  fexited (earlierProgram Sample.healthy [FMain; FTask 0]) = Some 2
  /\ fwg (earlierProgram Sample.healthy [FMain; FTask 0]) = -1.
Proof.
  apply (earlierProgram_done_before_add_panics Sample.healthy
           Sample.houseA [Sample.houseB]
           (snd (fetchAllHouses Sample.healthy []))).
  vm_compute. reflexivity.
Defined.

Lemma earlierProgram_returns_after_all_ran_witness :
  map thouse (tasks (earlierProgram Sample.healthy (mainFirst 2)))
  = [Sample.houseA; Sample.houseB]
  /\ (forall k, In k (tasks (earlierProgram Sample.healthy (mainFirst 2))) ->
        tdone k = true)
  /\ donesOf (fworld (earlierProgram Sample.healthy (mainFirst 2)))
     = (donesOf (snd (fetchAllHouses Sample.healthy []))
        + length [Sample.houseA; Sample.houseB])%nat
  /\ (forall h, In h [Sample.houseA; Sample.houseB] ->
        In (EGet (PhotoURL h))
           (fworld (earlierProgram Sample.healthy (mainFirst 2)))).
Proof.
  apply (earlierProgram_returns_after_all_ran Sample.healthy (mainFirst 2)
           [Sample.houseA; Sample.houseB]
           (snd (fetchAllHouses Sample.healthy []))).
  - vm_compute. reflexivity.
  - vm_compute. reflexivity.
Defined.

Lemma earlierProgram_main_first_returns_witness :
  fmain (earlierProgram Sample.photoDown
           (mainFirst (length [Sample.houseA; Sample.houseB]))) = FReturned
  /\ fexited (earlierProgram Sample.photoDown
                (mainFirst (length [Sample.houseA; Sample.houseB]))) = Some 0
  /\ fwg (earlierProgram Sample.photoDown
            (mainFirst (length [Sample.houseA; Sample.houseB]))) = 0.
Proof.
  apply (earlierProgram_main_first_returns Sample.photoDown
           [Sample.houseA; Sample.houseB]
           (snd (fetchAllHouses Sample.photoDown []))).
  vm_compute. reflexivity.
Defined.

(** ** Further facts: file names *)

Lemma digits_noDash (d : Decimal.uint) : noDash (NilEmpty.string_of_uint d).
Proof.
  induction d; simpl; try exact I; (split; [discriminate|assumption]).
Qed.

Lemma digits0_noDash (d : Decimal.uint) :
  noDash (NilZero.string_of_uint d)
  /\ exists c s, NilZero.string_of_uint d = String c s.
Proof.
  destruct d; simpl;
    (split; [try (split; [discriminate|]); try exact I; apply digits_noDash
            |eauto]).
Qed.

Lemma noDash_split (d1 : string) : forall (d2 x y : string),
  noDash d1 -> noDash d2 ->
  (d1 ++ String "-" x)%string = (d2 ++ String "-" y)%string ->
  d1 = d2.
Proof.
  induction d1 as [|c d1 IH]; intros [|c2 d2] x y H1 H2 Heq; simpl in *.
  - reflexivity.
  - inversion Heq; subst. destruct H2 as [H2 _]. contradiction.
  - inversion Heq; subst. destruct H1 as [H1 _]. contradiction.
  - inversion Heq; subst. f_equal. eapply IH; [tauto|tauto|eassumption].
Qed.

Lemma itoa_dash_inj (a b : Z) (x y : string) :
  (GoLib.itoa a ++ String "-" x)%string = (GoLib.itoa b ++ String "-" y)%string ->
  a = b.
Proof.
  intros Heq. apply itoa_inj. unfold GoLib.itoa in *.
  destruct (Z.to_int a) as [da|da], (Z.to_int b) as [db|db]; simpl in *.
  - destruct (digits0_noDash da) as (Ha & _).
    destruct (digits0_noDash db) as (Hb & _).
    eapply noDash_split; eassumption.
  - exfalso. destruct (digits0_noDash da) as (Ha & c & s & E).
    rewrite E in Heq, Ha. simpl in *. inversion Heq; subst. tauto.
  - exfalso. destruct (digits0_noDash db) as (Hb & c & s & E).
    rewrite E in Heq, Hb. simpl in *. inversion Heq; subst. tauto.
  - inversion Heq as [Heq']. f_equal.
    destruct (digits0_noDash da) as (Ha & _).
    destruct (digits0_noDash db) as (Hb & _).
    eapply noDash_split; eassumption.
Qed.

(** X15: houses with the same file name have the same id; so the files of
    two houses with different ids never overwrite each other. *)
Theorem fileName_tells_ids_apart :
  forall h h' : house, fileName h = fileName h' -> ID h = ID h'.
Proof.
  intros h h' Heq. unfold fileName in Heq. simpl in Heq.
  inversion Heq as [Heq'].
  eapply itoa_dash_inj. exact Heq'.
Qed.

Lemma fileName_tells_ids_apart_witness :
  ID Sample.house7 = ID Sample.house7again.
Proof.
  apply (fileName_tells_ids_apart Sample.house7 Sample.house7again).
  reflexivity.
Defined.

(** ** Further facts: the pool *)

(** X16: in every state of the pipelined program there are at most 20
    workers, and the wait group's counter is the number of workers that have
    not called wg.Done: it stays between 0 and 20 and never goes negative. *)
Theorem pool_counter_bounds :
  forall (env : Env) (sched : list Choice),
    0 <= wg (program env sched) <= maxGoroutines
    /\ (length (pool (program env sched)) <= 20)%nat
    /\ wg (program env sched)
       = Z.of_nat (unreleased (pool (program env sched))).
Proof.
  intros env sched.
  assert (Hinv : exists hs fin, poolInv env hs fin (program env sched)).
  { destruct (producerScript_cases env)
      as [(hs & t & _ & Hscript) | (hs & msg & t & _ & Hscript)].
    - exists hs, OpClose. apply program_poolInv; [left; reflexivity|assumption].
    - exists hs, (OpFatal msg). apply program_poolInv; [right; eauto|assumption]. }
  destruct Hinv as (hs & fin & _ & Hwg & Hmain & _).
  pose proof (filter_length_le notReleased (pool (program env sched))) as Hle.
  fold (unreleased (pool (program env sched))) in Hle.
  assert (Hlen : (length (pool (program env sched)) <= 20)%nat).
  { unfold maxGoroutines in Hmain.
    destruct (mainSt (program env sched)); lia. }
  unfold maxGoroutines. repeat split; try assumption; lia.
Qed.

Section Drain.

Variable env : Env.

Lemma neverFails_falls_through (h : house) (t : Trace) :
  neverFails env h ->
  exists body,
    downloadBody env h t
    = (Ok FallThrough,
       t ++ [EGet (PhotoURL h); ECreate (fileName h); ECopy (fileName h) body]).
Proof.
  intros Hn. destruct (Hn (getsOf (PhotoURL h) t)) as (rsp & Hg & Hc & Hcp).
  exists (Body rsp). rewrite downloadBody_run, Hg, Hc, Hcp. reflexivity.
Qed.

Lemma run_app (a b : list Choice) : forall s : Sys,
  run env (a ++ b) s = run env b (run env a s).
Proof.
  induction a as [|c a IH]; intros s; simpl; [reflexivity|].
  destruct (step env c s); apply IH.
Qed.

(** Worker 0 takes every record the producer has to send. *)
Lemma worker0_takes_all (rest : list house) :
  forall (m : MainSt) (em rc : list (nat * house)) (others : list Worker)
         (g : Z) (w : Trace),
    (forall h, In h rest -> neverFails env h) ->
    exists em' rc' w',
      run env (repeat (CWorker 0) (length rest))
        (mkSys m (map OpSend rest ++ [OpClose]) em false
           (mkWorker WLooping rc :: others) g w None)
      = mkSys m [OpClose] em' false (mkWorker WLooping rc' :: others) g w' None
      /\ map snd em' = map snd em ++ rest
      /\ (forall e, In e w -> In e w')
      /\ (forall h, In h rest -> exists body, In (ECopy (fileName h) body) w').
Proof.
  induction rest as [|h rest IH]; intros m em rc others g w Hok.
  - exists em, rc, w. simpl. rewrite app_nil_r.
    repeat split; auto. intros h [].
  - destruct (neverFails_falls_through h w (Hok h (or_introl eq_refl)))
      as (body & Hbody).
    cbn [length repeat run map app]. unfold step at 1. cbn [exited].
    unfold stepWorker. cbn [pool nth_error closed producer world].
    rewrite Hbody. cbn [setWorker mainSt emitted wg exited].
    destruct (IH m (em ++ [(length em, h)]) (rc ++ [(length em, h)]) others g
                (w ++ [EGet (PhotoURL h); ECreate (fileName h);
                       ECopy (fileName h) body]))
      as (em' & rc' & w' & Hrun & Hem & Hw & Hcopy).
    { intros h' Hin. apply Hok. right. assumption. }
    exists em', rc', w'. split; [exact Hrun|].
    split; [rewrite Hem, map_app, <- app_assoc; reflexivity|].
    split; [intros e He; apply Hw; apply in_or_app; left; assumption|].
    intros h' [<-|Hin]; [|auto].
    exists body. apply Hw. apply in_or_app. right. simpl. auto.
Qed.

End Drain.

Section Drain2.

Variable env : Env.

Lemma pool_spawned (script : list ChanOp) :
  run env (repeat CMain 21) (initSys script)
  = mkSys MWaiting script [] false
      (mkWorker WLooping [] :: repeat (mkWorker WLooping []) 19) 20 [] None.
Proof. reflexivity. Qed.

Lemma pool_closed (em : list (nat * house)) (ws : list Worker) (w : Trace) :
  run env [CProducer] (mkSys MWaiting [OpClose] em false ws 20 w None)
  = mkSys MWaiting [] em true ws 20 w None.
Proof. reflexivity. Qed.

Lemma pool_released (em rc : list (nat * house)) (w : Trace) :
  exists (ws : list Worker) (w' : Trace),
    run env (map CWorker (seq 0 20) ++ [CMain])
      (mkSys MWaiting [] em true
         (mkWorker WLooping rc :: repeat (mkWorker WLooping []) 19) 20 w None)
    = mkSys MReturned [] em true ws 0 w' (Some 0)
    /\ (forall e, In e w -> In e w').
Proof.
  eexists _, _. split.
  { cbv [run map seq app step stepWorker stepMain exited pool nth_error
         closed setWorker mainSt producer emitted wg world repeat].
    cbn. reflexivity. }
  intros e He. repeat (apply in_or_app; left). exact He.
Qed.

Lemma pool_drains (hs : list house) :
  (forall h, In h hs -> neverFails env h) ->
  exists em ws w,
    run env (oneWorkerTakesAll (length hs)) (initSys (map OpSend hs ++ [OpClose]))
    = mkSys MReturned [] em true ws 0 w (Some 0)
    /\ map snd em = hs
    /\ (forall h, In h hs -> exists body, In (ECopy (fileName h) body) w).
Proof.
  intros Hok. unfold oneWorkerTakesAll.
  rewrite run_app, pool_spawned.
  destruct (worker0_takes_all env hs MWaiting [] []
              (repeat (mkWorker WLooping []) 19) 20 [] Hok)
    as (em' & rc' & w' & Hrun & Hem & _ & Hcopy).
  rewrite run_app, Hrun.
  rewrite (run_app env [CProducer]), pool_closed.
  destruct (pool_released em' rc' w') as (ws & w'' & Hrel & Hw).
  rewrite Hrel. exists em', ws, w''.
  split; [reflexivity|]. split; [exact Hem|].
  intros h Hin. destruct (Hcopy h Hin) as (body & Hb). exists body. auto.
Qed.

End Drain2.

(** X17: when the producer's run returns and no download of its houses can
    fail, the schedule in which worker 0 takes every record ends with the
    channel drained and closed, every house's file filled, the wait group at
    0 and the process exited with code 0. *)
Theorem pool_drains_when_nothing_fails :
  forall (env : Env) (hs : list house),
    producerScript env = map OpSend hs ++ [OpClose] ->
    (forall h, In h hs -> neverFails env h) ->
    mainSt (program env (oneWorkerTakesAll (length hs))) = MReturned
    /\ exited (program env (oneWorkerTakesAll (length hs))) = Some 0
    /\ wg (program env (oneWorkerTakesAll (length hs))) = 0
    /\ map snd (emitted (program env (oneWorkerTakesAll (length hs)))) = hs
    /\ (forall h, In h hs ->
          exists body,
            In (ECopy (fileName h) body)
               (world (program env (oneWorkerTakesAll (length hs))))).
Proof.
  intros env hs Hscript Hok.
  unfold program. rewrite Hscript.
  destruct (pool_drains env hs Hok) as (em & ws & w & -> & Hem & Hcopy).
  repeat split; assumption.
Qed.

Lemma pool_drains_when_nothing_fails_witness :
  mainSt (program Sample.healthy (oneWorkerTakesAll 2)) = MReturned
  /\ exited (program Sample.healthy (oneWorkerTakesAll 2)) = Some 0
  /\ wg (program Sample.healthy (oneWorkerTakesAll 2)) = 0
  /\ map snd (emitted (program Sample.healthy (oneWorkerTakesAll 2)))
     = [Sample.houseA; Sample.houseB]
  /\ (forall h, In h [Sample.houseA; Sample.houseB] ->
        exists body,
          In (ECopy (fileName h) body)
             (world (program Sample.healthy (oneWorkerTakesAll 2)))).
Proof.
  apply (pool_drains_when_nothing_fails Sample.healthy
           [Sample.houseA; Sample.houseB]).
  - vm_compute. reflexivity.
  - intros h [<-|[<-|[]]] n; eexists; repeat split; reflexivity.
Defined.
